(** * Routing rules: rule-id encoding, best-match resolution and expiry

    A shallow embedding of the [RoutingDatabase] class (database.js): the
    [routing_rules] table is a list of rows in rowid order, every method
    that writes the table is a computation in a small state-and-error monad
    over that list, and the clock ([Date.now()] / [strftime('%s','now')]) is
    an explicit [now] argument in seconds.  A JavaScript string is held
    as the bytes of its UTF-8 encoding, which is how the table stores it. *)

From Stdlib Require Import String Ascii List ZArith Lia Bool Permutation
  Sorted.
Import ListNotations.

Open Scope Z_scope.
Open Scope string_scope.

(** ** JavaScript values that reach the class *)

(** A parameter that is [null], [undefined] or a string. *)
Inductive jsstr : Type :=
| JNull
| JUndefined
| JStr (s : string).

(** Truthiness of such a value: only a non-empty string is truthy. *)
Definition truthy (v : jsstr) : bool :=
  match v with
  | JStr s => negb (s =? "")
  | _ => false
  end.

(** What a template literal [`${v}`] renders. *)
Definition template (v : jsstr) : string :=
  match v with
  | JNull => "null"
  | JUndefined => "undefined"
  | JStr s => s
  end.

(** [v === 'lit'] for a string literal. *)
Definition is_str (v : jsstr) (lit : string) : bool :=
  match v with
  | JStr s => s =? lit
  | _ => false
  end.

(** [null], [undefined] or the empty string: the three-way test that
    [generateRuleId] writes out for its subdomain and path. *)
Definition null_undef_or_empty (v : jsstr) : bool :=
  match v with
  | JNull | JUndefined => true
  | JStr s => s =? ""
  end.

(** [s.startsWith('/')]. *)
Definition startsWith_slash (s : string) : bool :=
  match s with
  | String c _ => Ascii.eqb c "/"%char
  | EmptyString => false
  end.

(** [arr.join(',')] on an array of strings. *)
Fixpoint join_comma (l : list string) : string :=
  match l with
  | [] => ""
  | [x] => x
  | x :: rest => x ++ "," ++ join_comma rest
  end.

(** ** generateRuleId

    [queryParams] is [None] for [null]/[undefined] and [Some keys] for an
    array of strings (the shape the create route's schema admits). *)
Definition generateRuleId (domain subdomain path : jsstr)
    (queryParams : option (list string)) : string :=
  let ruleId :=
    if null_undef_or_empty subdomain
    then "!." ++ template domain
    else template subdomain ++ "." ++ template domain in
  let ruleId :=
    if null_undef_or_empty path then ruleId ++ "/!"
    else if is_str path "*" then ruleId ++ "/*"
    else if negb (startsWith_slash (template path))
         then ruleId ++ "/" ++ template path
         else ruleId ++ template path in
  match queryParams with
  | Some paramsArray =>
      match paramsArray with
      | [] => ruleId ++ "/[]"
      | _ => ruleId ++ "/[" ++ join_comma paramsArray ++ "]"
      end
  | None => ruleId
  end.

(** ** The routing_rules table *)

(** One row.  [subdomain] and [path] are nullable TEXT columns;
    [query_params] holds [NULL] or the JSON text of an array of strings,
    kept here as the array it parses to ([JSON.parse (JSON.stringify a)]
    is [a] on arrays of strings). *)
Record rule : Type := mkRule {
  rule_id : string;
  domain : string;
  subdomain : option string;
  path : option string;
  query_params : option (list string);
  downstream_url : string;
  expires_at : Z;
  created_at : Z;
  updated_at : Z
}.

(** The table: its rows in rowid order (a new row goes last). *)
Definition store : Type := list rule.

(** A column value as JavaScript sees it. *)
Definition of_column (c : option string) : jsstr :=
  match c with
  | None => JNull
  | Some s => JStr s
  end.

(** [a === b]. *)
Definition strict_eq (a b : jsstr) : bool :=
  match a, b with
  | JNull, JNull => true
  | JUndefined, JUndefined => true
  | JStr s, JStr t => s =? t
  | _, _ => false
  end.

(** ** Errors and the store monad *)

Inductive error : Type :=
| Error (message : string)         (* [new Error(message)] *)
| SqliteError (code : string).     (* raised by the storage engine *)

Inductive result (A : Type) : Type :=
| Ok (a : A)
| Throw (e : error).
Arguments Ok {A} a.
Arguments Throw {A} e.

Definition M (A : Type) : Type := store -> result A * store.

Definition ret {A} (a : A) : M A := fun st => (Ok a, st).
Definition throw {A} (e : error) : M A := fun st => (Throw e, st).
Definition bind {A B} (m : M A) (k : A -> M B) : M B :=
  fun st =>
    match m st with
    | (Ok a, st') => k a st'
    | (Throw e, st') => (Throw e, st')
    end.
Definition try_catch {A} (m : M A) (handler : error -> M A) : M A :=
  fun st =>
    match m st with
    | (Throw e, st') => handler e st'
    | r => r
    end.

Notation "x <- m ;; k" := (bind m (fun x => k))
  (at level 61, m at next level, right associativity).

(** ** Sorting

    [Array.prototype.sort] and [ORDER BY] both reorder by a comparison and
    nothing else; the sort is modelled as the stable insertion sort for a
    JavaScript-style comparator ([cmp a b <= 0] keeps [a] before [b]). *)
Section Sort.
Context {A : Type} (cmp : A -> A -> Z).

Fixpoint sort_insert (x : A) (l : list A) : list A :=
  match l with
  | [] => [x]
  | y :: l' => if (cmp x y <=? 0)%Z then x :: y :: l'
               else y :: sort_insert x l'
  end.

Fixpoint sort_by (l : list A) : list A :=
  match l with
  | [] => []
  | x :: l' => sort_insert x (sort_by l')
  end.
End Sort.

(** ** Reads *)

Definition has_id (ruleId : string) (r : rule) : bool := rule_id r =? ruleId.

(** [SELECT * FROM routing_rules WHERE rule_id = ?] *)
Definition getRule (ruleId : string) : M (option rule) :=
  fun st => (Ok (find (has_id ruleId) st), st).

(** [ORDER BY created_at DESC] *)
Definition created_desc (a b : rule) : Z := created_at b - created_at a.

Definition getAllRules (st : store) : list rule :=
  sort_by created_desc st.

(** [WHERE expires_at > ?] *)
Definition active (now : Z) (r : rule) : bool := (now <? expires_at r)%Z.

(** The order in which the engine walks idx_expires_at: by expiry, and
    by rowid among equal expiries. *)
Definition expires_asc (a b : rule) : Z := expires_at a - expires_at b.

(** The rows with [expires_at > now] are read off idx_expires_at and then
    put in [ORDER BY created_at DESC]; rows created in the same second
    stay in the order of the index. *)
Definition getActiveRules (now : Z) (st : store) : list rule :=
  sort_by created_desc (sort_by expires_asc (filter (active now) st)).

(** ** createRule *)
Section Create.
(** The [code] of the error the storage engine raises when an INSERT
    violates the primary key; the engine is not part of the sources. *)
Variable constraint_code : string.

(** [stmt.run(...)] of the INSERT: refused when the key is taken. *)
Definition insert_row (r : rule) : M unit :=
  fun st =>
    if existsb (has_id (rule_id r)) st
    then (Throw (SqliteError constraint_code), st)
    else (Ok tt, (st ++ [r])%list).

(** [subdomain] and [path] are [null] or a string, as the create route
    passes them ([subdomain || null]); [domain] may be anything. *)
Definition createRule (now : Z) (dom : jsstr) (sub pth : option string)
    (queryParams : option (list string)) (downstreamUrl : string)
    (expiresAt : Z) : M (option rule) :=
  if negb (truthy dom) then throw (Error "Domain is mandatory")
  else
    let ruleId :=
      generateRuleId dom (of_column sub) (of_column pth) queryParams in
    try_catch
      (_ <- insert_row (mkRule ruleId (template dom) sub pth queryParams
                          downstreamUrl expiresAt now now) ;;
       getRule ruleId)
      (fun e =>
         match e with
         | SqliteError code =>
             if code =? "SQLITE_CONSTRAINT"
             then throw (Error "Rule with this ID already exists")
             else throw e
         | _ => throw e
         end).
End Create.

(** The [code] that better-sqlite3 gives the error it raises when an
    INSERT meets a taken primary key (SQLite's extended result code). *)
Definition primary_key_violation : string := "SQLITE_CONSTRAINT_PRIMARYKEY".

(** ** updateRule *)

(** The patch object.  Its [downstream_url] and [expires_at] entries are
    typed as the update route's schema types them; every other key is
    dropped by the [allowedFields] test and so carries no value here. *)
Record updates : Type := mkUpdates {
  upd_downstream_url : option string;
  upd_expires_at : option Z;
  upd_other_keys : list string
}.

Inductive set_clause : Type :=
| Set_downstream_url (v : string)
| Set_expires_at (v : Z)
| Set_updated_at_now.

Definition apply_clause (now : Z) (r : rule) (c : set_clause) : rule :=
  match c with
  | Set_downstream_url v =>
      mkRule (rule_id r) (domain r) (subdomain r) (path r) (query_params r)
             v (expires_at r) (created_at r) (updated_at r)
  | Set_expires_at v =>
      mkRule (rule_id r) (domain r) (subdomain r) (path r) (query_params r)
             (downstream_url r) v (created_at r) (updated_at r)
  | Set_updated_at_now =>
      mkRule (rule_id r) (domain r) (subdomain r) (path r) (query_params r)
             (downstream_url r) (expires_at r) (created_at r) now
  end.

(** [UPDATE routing_rules SET ... WHERE rule_id = ?]; yields [changes]. *)
Definition run_update (now : Z) (clauses : list set_clause)
    (ruleId : string) : M nat :=
  fun st =>
    (Ok (length (filter (has_id ruleId) st)),
     map (fun r => if has_id ruleId r
                   then fold_left (apply_clause now) clauses r
                   else r) st).

Definition updateRule (now : Z) (ruleId : string) (u : updates)
    : M (option rule) :=
  let setClauses :=
    ((match upd_downstream_url u with
      | Some v => [Set_downstream_url v] | None => [] end)
     ++ (match upd_expires_at u with
         | Some v => [Set_expires_at v] | None => [] end))%list in
  if Nat.eqb (length setClauses) 0
  then throw (Error "No valid fields to update")
  else
    changes <- run_update now (setClauses ++ [Set_updated_at_now])%list ruleId ;;
    if Nat.eqb changes 0 then throw (Error "Rule not found")
    else getRule ruleId.

(** ** deleteRule and pruneExpiredRules *)

Definition deleteRule (ruleId : string) : M bool :=
  fun st =>
    (Ok (Nat.ltb 0 (length (filter (has_id ruleId) st))),
     filter (fun r => negb (has_id ruleId r)) st).

(** [WHERE expires_at <= ?] *)
Definition expired (now : Z) (r : rule) : bool := (expires_at r <=? now)%Z.

Definition pruneExpiredRules (now : Z) : M nat :=
  fun st =>
    (Ok (length (filter (expired now) st)),
     filter (fun r => negb (expired now r)) st).

(** ** findMatchingRule *)

(** The subdomain test of the loop body: [None] is [continue], [Some n]
    is [score += n]. *)
Definition check_subdomain (r : rule) (sub : jsstr) : option Z :=
  let rs := of_column (subdomain r) in
  if is_str rs "*" then Some 1
  else if is_str rs "!" || negb (truthy rs) then
    if truthy sub then None else Some 10
  else if strict_eq rs sub then Some 10
  else None.

Definition check_path (r : rule) (pth : jsstr) : option Z :=
  let rp := of_column (path r) in
  if is_str rp "*" then Some 1
  else if is_str rp "!" || negb (truthy rp) then
    if truthy pth && negb (is_str pth "/") && negb (is_str pth "!")
    then None else Some 10
  else if strict_eq rp pth then Some 10
  else None.

(** [allowedParams.includes(key)] *)
Definition includes (l : list string) (key : string) : bool :=
  existsb (String.eqb key) l.

(** The query-parameter test; [keys] is [Object.keys(queryParams)].
    [None] leaves [queryParamsMatch] false. *)
Definition check_query (r : rule) (keys : list string) : option Z :=
  match query_params r with
  | None => Some 5
  | Some allowedParams =>
      if Nat.eqb (length allowedParams) 0 then
        if Nat.eqb (length keys) 0 then Some 10 else None
      else if forallb (includes allowedParams) keys then Some 10
      else None
  end.

(** One turn of the loop: the score the rule is pushed with, if it is. *)
Definition score_rule (r : rule) (sub pth : jsstr) (keys : list string)
    : option Z :=
  match check_subdomain r sub with
  | None => None
  | Some s1 =>
      match check_path r pth with
      | None => None
      | Some s2 =>
          match check_query r keys with
          | None => None
          | Some s3 => Some (0 + s1 + s2 + s3)
          end
      end
  end.

(** The [matches] array after the loop, in the order of [allRules]. *)
Fixpoint collect_matches (allRules : list rule) (sub pth : jsstr)
    (keys : list string) : list (rule * Z) :=
  match allRules with
  | [] => []
  | r :: rest =>
      match score_rule r sub pth keys with
      | Some score => (r, score) :: collect_matches rest sub pth keys
      | None => collect_matches rest sub pth keys
      end
  end.

(** [(a, b) => b.score - a.score] *)
Definition by_score_desc (a b : rule * Z) : Z := snd b - snd a.

(** [query_params] is already held parsed, so nothing is left to do. *)
Definition formatRule (r : rule) : rule := r.

(** [SELECT * FROM routing_rules WHERE expires_at > ? AND domain = ?] *)
Definition select_candidates (now : Z) (dom : string) (st : store)
    : list rule :=
  filter (fun r => active now r && (domain r =? dom)) st.

Definition findMatchingRule (now : Z) (st : store) (dom : string)
    (sub pth : jsstr) (keys : list string) : option rule :=
  let allRules := select_candidates now dom st in
  let matches := collect_matches allRules sub pth keys in
  match sort_by by_score_desc matches with
  | best :: _ => Some (formatRule (fst best))
  | [] => None
  end.

(** The store that test.js builds. *)
Definition test_store : store :=
  [ mkRule "api.example.com/users/[id,page]" "example.com" (Some "api")
      (Some "/users") (Some ["id"; "page"]) "http://backend:8080" 4600
      1000 1000;
    mkRule "*.example.com/*" "example.com" (Some "*") (Some "*") None
      "http://wildcard:9000" 8200 1000 1000;
    mkRule "!.myapp.com/static/[]" "myapp.com" None (Some "/static")
      (Some []) "http://cdn:3000" 2800 1000 1000 ].

(** ** The specification's view of a row: selectors and query policies *)

Inductive Selector : Type :=
| SelAny
| SelNone
| SelExact (v : string).

Inductive QueryPolicy : Type :=
| AllowAll
| AllowNone
| AllowList (keys : list string).

(** How a stored subdomain or path column reads as a selector. *)
Definition selector_of (c : option string) : Selector :=
  match c with
  | None => SelNone
  | Some s =>
      if s =? "*" then SelAny
      else if (s =? "!") || (s =? "") then SelNone
      else SelExact s
  end.

(** How a stored [query_params] column reads as a policy. *)
Definition policy_of (q : option (list string)) : QueryPolicy :=
  match q with
  | None => AllowAll
  | Some [] => AllowNone
  | Some keys => AllowList keys
  end.

(** The request carries no value in a dimension: [null], [undefined] or
    the empty string. *)
Definition absent (v : jsstr) : bool := negb (truthy v).

(** The three sub-scores as the specification words them. *)
Definition spec_subdomain_score (sel : Selector) (sub : jsstr) : option Z :=
  match sel with
  | SelExact v => if strict_eq (JStr v) sub then Some 10 else None
  | SelNone => if absent sub then Some 10 else None
  | SelAny => Some 1
  end.

(** Path, as worded: a none selector takes an absent, empty or root path. *)
Definition spec_path_score (sel : Selector) (pth : jsstr) : option Z :=
  match sel with
  | SelExact v => if strict_eq (JStr v) pth then Some 10 else None
  | SelNone => if absent pth || is_str pth "/" then Some 10 else None
  | SelAny => Some 1
  end.

(** Path, as the code has it: the literal ["!"] is taken as well. *)
Definition spec_path_score_bang (sel : Selector) (pth : jsstr) : option Z :=
  match sel with
  | SelExact v => if strict_eq (JStr v) pth then Some 10 else None
  | SelNone =>
      if absent pth || is_str pth "/" || is_str pth "!" then Some 10
      else None
  | SelAny => Some 1
  end.

Definition spec_query_score (pol : QueryPolicy) (keys : list string)
    : option Z :=
  match pol with
  | AllowAll => Some 5
  | AllowNone => match keys with [] => Some 10 | _ => None end
  | AllowList allowed =>
      if forallb (includes allowed) keys then Some 10 else None
  end.

(** The sum of three sub-scores, when none of them excludes the rule. *)
Definition sum3 (a b c : option Z) : option Z :=
  match a, b, c with
  | Some x, Some y, Some z => Some (x + y + z)
  | _, _, _ => None
  end.

Definition spec_total (r : rule) (sub pth : jsstr) (keys : list string)
    : option Z :=
  sum3 (spec_subdomain_score (selector_of (subdomain r)) sub)
       (spec_path_score (selector_of (path r)) pth)
       (spec_query_score (policy_of (query_params r)) keys).

Definition spec_total_bang (r : rule) (sub pth : jsstr)
    (keys : list string) : option Z :=
  sum3 (spec_subdomain_score (selector_of (subdomain r)) sub)
       (spec_path_score_bang (selector_of (path r)) pth)
       (spec_query_score (policy_of (query_params r)) keys).

(** A candidate of the request: an active row of the request's domain. *)
Definition candidate (now : Z) (dom : string) (st : store) (r : rule)
    : Prop :=
  In r st /\ active now r = true /\ domain r = dom.

(** ** The codec on selector tuples *)

(** The argument a selector or policy is passed as. *)
Definition selector_arg (s : Selector) : jsstr :=
  match s with
  | SelAny => JStr "*"
  | SelNone => JNull
  | SelExact v => JStr v
  end.

Definition policy_arg (q : QueryPolicy) : option (list string) :=
  match q with
  | AllowAll => None
  | AllowNone => Some []
  | AllowList keys => Some keys
  end.

Definition encode (dom : string) (sub pth : Selector) (q : QueryPolicy)
    : string :=
  generateRuleId (JStr dom) (selector_arg sub) (selector_arg pth)
    (policy_arg q).

(** Does the character occur in the string? *)
Fixpoint occurs (c : ascii) (s : string) : bool :=
  match s with
  | EmptyString => false
  | String a s' => Ascii.eqb a c || occurs c s'
  end.

(** Do the characters [a] and then [b] occur next to each other? *)
Fixpoint occurs_pair (a b : ascii) (s : string) : bool :=
  match s with
  | EmptyString => false
  | String x t =>
      (Ascii.eqb x a
       && match t with
          | String y _ => Ascii.eqb y b
          | EmptyString => false
          end)
      || occurs_pair a b t
  end.

(** Selector tuples in canonical form.  An exact subdomain is not empty,
    is not the text of a marker and has no slash.  An exact path is
    written with its leading slash, is not the text of a marker segment,
    and no later segment of it opens with a bracket.  An allow-list is
    not empty (that is the none policy), is not the single empty key, and
    none of its keys has a comma. *)
Definition canonical_subdomain (s : Selector) : bool :=
  match s with
  | SelExact v =>
      negb (v =? "") && negb (v =? "*") && negb (v =? "!")
      && negb (occurs "/" v)
  | _ => true
  end.

Definition canonical_path (s : Selector) : bool :=
  match s with
  | SelExact v =>
      match v with
      | String c t =>
          Ascii.eqb c "/" && negb (t =? "*") && negb (t =? "!")
          && negb (occurs_pair "/" "[" t)
      | EmptyString => false
      end
  | _ => true
  end.

Definition comma_free (k : string) : bool := negb (occurs "," k).

Definition canonical_policy (q : QueryPolicy) : bool :=
  match q with
  | AllowList keys =>
      match keys with
      | [] => false
      | [k] => negb (k =? "")
      | _ => true
      end && forallb comma_free keys
  | _ => true
  end.

Definition canonical (sub pth : Selector) (q : QueryPolicy) : bool :=
  canonical_subdomain sub && canonical_path pth && canonical_policy q.

(** ** The tie-break the specification recommends *)

(** [a] goes before [b]: created later, or created together and smaller
    id in lexicographic order. *)
Definition recommended_before (a b : rule) : bool :=
  (created_at b <? created_at a)%Z
  || ((created_at a =? created_at b)%Z && (rule_id a <? rule_id b)).

(** Two rules of one domain that tie on every request without subdomain
    for the root path. *)
Definition tie_older : rule :=
  mkRule "!.example.com/*" "example.com" None (Some "*") None
    "http://first:1" 5000 100 100.

Definition tie_newer : rule :=
  mkRule "*.example.com/!" "example.com" (Some "*") None None
    "http://second:2" 5000 200 200.

(** A rule whose path is left unset. *)
Definition root_rule : rule :=
  mkRule "www.example.com/!" "example.com" (Some "www") None None
    "http://root:1" 5000 100 100.

(** The first rule of test.js, and a rule whose expiry is reached at
    time 1000. *)
Definition users_rule : rule :=
  mkRule "api.example.com/users/[id,page]" "example.com" (Some "api")
    (Some "/users") (Some ["id"; "page"]) "http://backend:8080" 4600
    1000 1000.

Definition lapsed_rule : rule :=
  mkRule "old.expired.com/test" "expired.com" (Some "old") (Some "/test")
    None "http://old:8080" 1000 500 500.

(** A row with its subdomain column replaced. *)
Definition with_subdomain (r : rule) (c : option string) : rule :=
  mkRule (rule_id r) (domain r) c (path r) (query_params r)
         (downstream_url r) (expires_at r) (created_at r) (updated_at r).

(** The columns that are fixed at creation agree on two rows. *)
Definition same_identity (r r' : rule) : Prop :=
  rule_id r' = rule_id r
  /\ domain r' = domain r
  /\ subdomain r' = subdomain r
  /\ path r' = path r
  /\ query_params r' = query_params r
  /\ created_at r' = created_at r.

(** ** The id grammar of the specification *)

Definition subdomain_part (s : Selector) : string :=
  match s with
  | SelAny => "*"
  | SelNone => "!"
  | SelExact v => v
  end.

Definition path_part (s : Selector) : string :=
  match s with
  | SelAny => "/*"
  | SelNone => "/!"
  | SelExact v => if startsWith_slash v then v else "/" ++ v
  end.

Definition query_part (q : QueryPolicy) : string :=
  match q with
  | AllowAll => ""
  | AllowNone => "/[]"
  | AllowList keys => "/[" ++ join_comma keys ++ "]"
  end.

(** ** Invariants of the table *)

(** The row's id is the encoding of its own columns. *)
Definition well_keyed (r : rule) : Prop :=
  rule_id r
  = generateRuleId (JStr (domain r)) (of_column (subdomain r))
      (of_column (path r)) (query_params r).

(** What every table built through the class satisfies: ids are unique,
    every row is keyed by its columns and has a non-empty domain. *)
Definition store_ok (st : store) : Prop :=
  NoDup (map rule_id st)
  /\ Forall well_keyed st
  /\ Forall (fun r => domain r <> "") st.

(** The final state of a computation, whatever its outcome. *)
Definition state_after {A : Type} (m : M A) (st : store) : store :=
  snd (m st).

(** What [updateRule] makes of the row it finds. *)
Definition updated_row (now : Z) (u : updates) (r : rule) : rule :=
  mkRule (rule_id r) (domain r) (subdomain r) (path r) (query_params r)
    (match upd_downstream_url u with Some v => v | None => downstream_url r end)
    (match upd_expires_at u with Some v => v | None => expires_at r end)
    (created_at r) now.

(** ** The resolver service (proxy-resolver) *)

(** [host.split('.')] *)
Fixpoint split_dot (s : string) : list string :=
  match s with
  | EmptyString => [""]
  | String c s' =>
      if Ascii.eqb c "."%char then "" :: split_dot s'
      else match split_dot s' with
           | h :: t => String c h :: t
           | [] => [String c ""]
           end
  end.

(** The host split into [(domain, subdomain)]: the last two labels, and
    what precedes them if anything does. *)
Definition parseHost (host : string) : string * jsstr :=
  let hostParts := split_dot host in
  if Nat.leb 2 (length hostParts) then
    (String.concat "." (skipn (length hostParts - 2) hostParts),
     if Nat.ltb 2 (length hostParts)
     then JStr (String.concat "." (firstn (length hostParts - 2) hostParts))
     else JNull)
  else (host, JNull).

(** [v || d] *)
Definition or_default (v d : jsstr) : jsstr := if truthy v then v else d.

(** May the string be the value of a response header?  Node refuses
    ([ERR_INVALID_CHAR]) a value with a character other than the tab and
    the code points 0x20-0x7e and 0x80-0xff; the last are the two-byte
    sequences that start with 0xc2 or 0xc3. *)
Fixpoint header_value_ok (s : string) : bool :=
  match s with
  | EmptyString => true
  | String c rest =>
      let b := N_of_ascii c in
      if (b <? 128)%N
      then ((b =? 9)%N || ((32 <=? b)%N && (b <=? 126)%N))
           && header_value_ok rest
      else if (b =? 194)%N || (b =? 195)%N
      then match rest with
           | String c2 rest' =>
               (128 <=? N_of_ascii c2)%N && (N_of_ascii c2 <=? 191)%N
               && header_value_ok rest'
           | EmptyString => false
           end
      else false
  end.

(** What the resolver answers. *)
Inductive resolver_reply : Type :=
| Resolver_400                      (* Host is required *)
| Resolver_404                      (* No matching route found *)
| Resolver_200 (downstreamUrl ruleId : string) (expiresAt : Z)
| Resolver_500.                     (* the catch clause *)

(** [GET /resolve?host=..&path=..&..]; [keys] are the remaining query
    keys.  The 200 answer puts the rule's target and id into headers;
    when [writeHead] refuses one of them the catch clause answers 500. *)
Definition resolve_handler (now : Z) (st : store) (host reqPath : jsstr)
    (keys : list string) : resolver_reply :=
  if negb (truthy host) then Resolver_400
  else
    let '(dom, sub) := parseHost (template host) in
    match findMatchingRule now st dom sub (or_default reqPath (JStr "/"))
            keys with
    | None => Resolver_404
    | Some r =>
        if header_value_ok (downstream_url r) && header_value_ok (rule_id r)
        then Resolver_200 (downstream_url r) (rule_id r) (expires_at r)
        else Resolver_500
    end.

(** ** decodeURIComponent *)

Definition hex_digit (c : ascii) : option N :=
  let n := N_of_ascii c in
  if ((48 <=? n) && (n <=? 57))%N then Some (n - 48)%N
  else if ((65 <=? n) && (n <=? 70))%N then Some (n - 55)%N
  else if ((97 <=? n) && (n <=? 102))%N then Some (n - 87)%N
  else None.

(** A percent sign and two hexadecimal digits: the octet, and what
    follows. *)
Definition parse_escape (s : string) : option (N * string) :=
  match s with
  | String c (String h1 (String h2 rest)) =>
      if Ascii.eqb c "%" then
        match hex_digit h1, hex_digit h2 with
        | Some a, Some b => Some (16 * a + b, rest)%N
        | _, _ => None
        end
      else None
  | _ => None
  end.

Fixpoint take_escapes (n : nat) (s : string) : option (list N * string) :=
  match n with
  | O => Some ([], s)
  | S n' =>
      match parse_escape s with
      | None => None
      | Some (b, rest) =>
          match take_escapes n' rest with
          | None => None
          | Some (bs, rest') => Some (b :: bs, rest')
          end
      end
  end.

(** The number of leading one bits of an octet of 0x80 or more. *)
Definition leading_ones (b : N) : nat :=
  if (b <? 192)%N then 1
  else if (b <? 224)%N then 2
  else if (b <? 240)%N then 3
  else if (b <? 248)%N then 4
  else 5.

Definition continuation (b : N) : bool := ((128 <=? b) && (b <=? 191))%N.

(** The octets are the UTF-8 encoding of one code point: not overlong,
    no surrogate, not beyond U+10FFFF. *)
Definition valid_utf8 (octets : list N) : bool :=
  match octets with
  | [b0; b1] => ((194 <=? b0) && (b0 <=? 223))%N && continuation b1
  | [b0; b1; b2] =>
      ((b0 =? 224)%N && ((160 <=? b1) && (b1 <=? 191))%N
       || (((225 <=? b0) && (b0 <=? 236))%N || ((238 <=? b0) && (b0 <=? 239))%N)
          && continuation b1
       || (b0 =? 237)%N && ((128 <=? b1) && (b1 <=? 159))%N)
      && continuation b2
  | [b0; b1; b2; b3] =>
      ((b0 =? 240)%N && ((144 <=? b1) && (b1 <=? 191))%N
       || ((241 <=? b0) && (b0 <=? 243))%N && continuation b1
       || (b0 =? 244)%N && ((128 <=? b1) && (b1 <=? 143))%N)
      && continuation b2 && continuation b3
  | _ => false
  end.

Fixpoint string_of_octets (l : list N) : string :=
  match l with
  | [] => ""
  | b :: l' => String (ascii_of_N b) (string_of_octets l')
  end.

(** The decoding loop; [None] is the thrown [URIError].  Every turn
    consumes at least one character, so [fuel] of the length of the
    string is never used up. *)
Fixpoint decode_from (fuel : nat) (s : string) : option string :=
  match s with
  | EmptyString => Some ""
  | String c s' =>
      match fuel with
      | O => None
      | S fuel' =>
          if Ascii.eqb c "%" then
            match parse_escape s with
            | None => None
            | Some (b, rest) =>
                if (b <? 128)%N
                then option_map (String (ascii_of_N b))
                       (decode_from fuel' rest)
                else
                  let n := leading_ones b in
                  if Nat.eqb n 1 || Nat.ltb 4 n then None
                  else
                    match take_escapes (n - 1) rest with
                    | None => None
                    | Some (bs, rest') =>
                        if valid_utf8 (b :: bs)
                        then option_map
                               (String.append (string_of_octets (b :: bs)))
                               (decode_from fuel' rest')
                        else None
                    end
            end
          else option_map (String c) (decode_from fuel' s')
      end
  end.

Definition decodeURIComponent (s : string) : option string :=
  decode_from (String.length s) s.

(** The error that [decodeURIComponent] throws. *)
Definition uri_malformed : error := Error "URI malformed".

(** ** The management API (api-server) *)

(** [v || null], as a column value. *)
Definition or_null (v : jsstr) : option string :=
  match or_default v JNull with
  | JStr s => Some s
  | _ => None
  end.

(** The body of [POST /api/rules] once the route's schema has accepted
    it; [body_query_params] is [None] when the field is [null] or left
    out. *)
Record create_body : Type := mkCreateBody {
  body_domain : string;
  body_subdomain : jsstr;
  body_path : jsstr;
  body_query_params : option (list string);
  body_downstream_url : string;
  body_expires_at : Z
}.

(** A reply: the status code, and the rule or the error it carries. *)
Record api_reply : Type := mkReply {
  status : Z;
  data : option rule;
  failure : option error
}.

(** [error.message === msg]; the text of an engine error is none of the
    class's messages. *)
Definition message_is (e : error) (msg : string) : bool :=
  match e with
  | Error m => m =? msg
  | SqliteError _ => false
  end.

Definition api_create (code : string) (now : Z) (b : create_body)
    : store -> api_reply * store :=
  fun st =>
    match createRule code now (JStr (body_domain b))
            (or_null (body_subdomain b)) (or_null (body_path b))
            (body_query_params b) (body_downstream_url b)
            (body_expires_at b) st with
    | (Ok r, st') => (mkReply 201 r None, st')
    | (Throw e, st') => (mkReply 400 None (Some e), st')
    end.

(** [PATCH /api/rules/:ruleId]; [ruleId] is the route parameter, which
    the handler decodes once more before it reaches the class. *)
Definition api_update (now : Z) (ruleId : string) (u : updates)
    : store -> api_reply * store :=
  fun st =>
    match match decodeURIComponent ruleId with
          | None => (Throw uri_malformed, st)
          | Some id => updateRule now id u st
          end with
    | (Ok r, st') => (mkReply 200 r None, st')
    | (Throw e, st') =>
        (mkReply (if message_is e "Rule not found" then 404 else 400)
           None (Some e), st')
    end.

(** [DELETE /api/rules/:ruleId] *)
Definition api_delete (ruleId : string) : store -> api_reply * store :=
  fun st =>
    match match decodeURIComponent ruleId with
          | None => (Throw uri_malformed, st)
          | Some id => deleteRule id st
          end with
    | (Ok deleted, st') =>
        if negb deleted
        then (mkReply 404 None (Some (Error "Rule not found")), st')
        else (mkReply 200 None None, st')
    | (Throw e, st') => (mkReply 500 None (Some e), st')
    end.

(** [GET /api/match?domain=..&subdomain=..&path=..&..] *)
Definition api_match (now : Z) (st : store) (dom sub pth : jsstr)
    (keys : list string) : api_reply :=
  if negb (truthy dom)
  then mkReply 400 None (Some (Error "Domain is required"))
  else
    match findMatchingRule now st (template dom) (of_column (or_null sub))
            (of_column (or_null pth)) keys with
    | None => mkReply 404 None (Some (Error "No matching rule found"))
    | Some r => mkReply 200 (Some r) None
    end.

(** * Checks against the test script *)

Example generateRuleId_test_all :
  generateRuleId (JStr "example.com") (JStr "api") (JStr "/users")
    (Some ["id"; "page"]) = "api.example.com/users/[id,page]".
Proof. reflexivity. Qed.

Example generateRuleId_test_wildcard :
  generateRuleId (JStr "example.com") (JStr "*") (JStr "/api") None
  = "*.example.com/api".
Proof. reflexivity. Qed.

Example generateRuleId_test_no_subdomain :
  generateRuleId (JStr "example.com") JNull (JStr "/home") (Some [])
  = "!.example.com/home/[]".
Proof. reflexivity. Qed.

Example generateRuleId_test_no_restriction :
  generateRuleId (JStr "example.com") (JStr "www") (JStr "/test") None
  = "www.example.com/test".
Proof. reflexivity. Qed.

Example match_exact :
  option_map rule_id
    (findMatchingRule 1000 test_store "example.com" (JStr "api")
       (JStr "/users") ["id"; "page"])
  = Some "api.example.com/users/[id,page]".
Proof. reflexivity. Qed.

Example match_wildcard :
  option_map rule_id
    (findMatchingRule 1000 test_store "example.com" (JStr "test")
       (JStr "/anything") [])
  = Some "*.example.com/*".
Proof. reflexivity. Qed.

Example match_falls_back_on_invalid_param :
  option_map rule_id
    (findMatchingRule 1000 test_store "example.com" (JStr "api")
       (JStr "/users") ["id"; "invalid"])
  = Some "*.example.com/*".
Proof. reflexivity. Qed.

Example match_none_allowed_rejects :
  findMatchingRule 1000 test_store "myapp.com" JNull (JStr "/static")
    ["test"] = None.
Proof. reflexivity. Qed.

Example match_none_allowed_accepts :
  option_map rule_id
    (findMatchingRule 1000 test_store "myapp.com" JNull (JStr "/static") [])
  = Some "!.myapp.com/static/[]".
Proof. reflexivity. Qed.

(** * The sort keeps the elements and puts a first maximum in front *)

Section SortFacts.
Context {A : Type} (cmp : A -> A -> Z).

Lemma sort_insert_perm (x : A) (l : list A) :
  Permutation (x :: l) (sort_insert cmp x l).
Proof.
  induction l as [|y l IH]; simpl.
  - apply Permutation_refl.
  - destruct (cmp x y <=? 0)%Z.
    + apply Permutation_refl.
    + eapply perm_trans; [apply perm_swap|].
      now apply perm_skip.
Qed.

Lemma sort_by_perm (l : list A) : Permutation l (sort_by cmp l).
Proof.
  induction l as [|x l IH]; simpl.
  - apply perm_nil.
  - eapply perm_trans; [apply perm_skip, IH | apply sort_insert_perm].
Qed.

Lemma sort_by_In (x : A) (l : list A) : In x (sort_by cmp l) <-> In x l.
Proof.
  split; intro H.
  - eapply Permutation_in; [apply Permutation_sym, sort_by_perm | exact H].
  - eapply Permutation_in; [apply sort_by_perm | exact H].
Qed.

Lemma sort_by_nil (l : list A) : sort_by cmp l = [] -> l = [].
Proof.
  intro H. apply Permutation_nil.
  rewrite <- H. apply Permutation_sym, sort_by_perm.
Qed.

Lemma sort_insert_head (x : A) (l : list A) :
  hd_error (sort_insert cmp x l) =
  match hd_error l with
  | None => Some x
  | Some h => if (cmp x h <=? 0)%Z then Some x else Some h
  end.
Proof.
  destruct l as [|y l]; simpl; [reflexivity|].
  now destruct (cmp x y <=? 0)%Z.
Qed.
End SortFacts.

(** The front of the sorted [matches]: everything before it in the
    unsorted array scores strictly less, everything after it no more. *)
Lemma sort_head_first_max (l : list (rule * Z)) (m : rule * Z)
    (rest : list (rule * Z)) :
  sort_by by_score_desc l = m :: rest ->
  exists l1 l2,
    l = (l1 ++ m :: l2)%list
    /\ Forall (fun x => (snd x < snd m)%Z) l1
    /\ Forall (fun x => (snd x <= snd m)%Z) l2.
Proof.
  revert m rest. induction l as [|x l IH]; intros m rest H; [discriminate|].
  simpl in H.
  assert (Hhd : hd_error (sort_insert by_score_desc x (sort_by by_score_desc l))
                = Some m) by now rewrite H.
  rewrite sort_insert_head in Hhd.
  destruct (sort_by by_score_desc l) as [|h t] eqn:Hs; simpl in Hhd.
  - apply sort_by_nil in Hs. subst l. injection Hhd as <-.
    exists [], []. repeat split; constructor.
  - destruct (IH h t eq_refl) as (l1 & l2 & Hl & H1 & H2).
    unfold by_score_desc in Hhd.
    destruct (snd h - snd x <=? 0)%Z eqn:Hc; injection Hhd as <-.
    + apply Z.leb_le in Hc.
      exists [], l. split; [reflexivity|]. split; [constructor|].
      subst l. apply Forall_app. split.
      * eapply Forall_impl; [|exact H1]. simpl. intros; lia.
      * constructor; [lia|].
        eapply Forall_impl; [|exact H2]. simpl. intros; lia.
    + apply Z.leb_gt in Hc.
      exists (x :: l1), l2. subst l. split; [reflexivity|].
      split; [constructor; [lia|assumption] | assumption].
Qed.

(** * The loop body computes the three sub-scores *)

(** The tests of the loop on a non-null column, as tests on its text. *)
Ltac column_tests s :=
  change (of_column (Some s)) with (JStr s);
  change (is_str (JStr s) "*") with (s =? "*");
  change (is_str (JStr s) "!") with (s =? "!");
  change (truthy (JStr s)) with (negb (s =? "")).

Lemma check_subdomain_spec (r : rule) (sub : jsstr) :
  check_subdomain r sub
  = spec_subdomain_score (selector_of (subdomain r)) sub.
Proof.
  unfold check_subdomain, selector_of, absent.
  destruct (subdomain r) as [s|].
  - column_tests s.
    destruct (s =? "*"); [reflexivity|].
    destruct (s =? "!"), (s =? ""); cbn [orb negb];
      try reflexivity;
      unfold spec_subdomain_score, absent; now destruct (truthy sub).
  - unfold spec_subdomain_score, absent. simpl. now destruct (truthy sub).
Qed.

Lemma check_path_spec (r : rule) (pth : jsstr) :
  check_path r pth = spec_path_score_bang (selector_of (path r)) pth.
Proof.
  unfold check_path, selector_of, absent.
  destruct (path r) as [s|].
  - column_tests s.
    destruct (s =? "*"); [reflexivity|].
    destruct (s =? "!"), (s =? ""); cbn [orb negb]; try reflexivity;
      unfold spec_path_score_bang, absent;
      now destruct (truthy pth), (is_str pth "/"), (is_str pth "!").
  - unfold spec_path_score_bang, absent. simpl.
    now destruct (truthy pth), (is_str pth "/"), (is_str pth "!").
Qed.

Lemma check_query_spec (r : rule) (keys : list string) :
  check_query r keys = spec_query_score (policy_of (query_params r)) keys.
Proof.
  unfold check_query, policy_of.
  destruct (query_params r) as [[|k ks]|]; simpl; try reflexivity.
  now destruct keys.
Qed.

Lemma score_rule_spec (r : rule) (sub pth : jsstr) (keys : list string) :
  score_rule r sub pth keys = spec_total_bang r sub pth keys.
Proof.
  unfold score_rule, spec_total_bang, sum3.
  rewrite check_subdomain_spec, check_path_spec, check_query_spec.
  destruct (spec_subdomain_score _ _); [|reflexivity].
  destruct (spec_path_score_bang _ _); [|reflexivity].
  destruct (spec_query_score _ _); [|reflexivity].
  f_equal; lia.
Qed.

Lemma collect_matches_In (l : list rule) (sub pth : jsstr)
    (keys : list string) (r : rule) (s : Z) :
  In (r, s) (collect_matches l sub pth keys)
  <-> In r l /\ score_rule r sub pth keys = Some s.
Proof.
  induction l as [|x l IH]; simpl; [tauto|].
  destruct (score_rule x sub pth keys) as [sx|] eqn:Hx; simpl.
  - rewrite IH. split.
    + intros [E | [Hin Hs]]; [injection E as <- <-; auto | auto].
    + intros [[<- | Hin] Hs]; [left; congruence | right; auto].
  - rewrite IH. split.
    + intros [Hin Hs]; auto.
    + intros [[<- | Hin] Hs]; [congruence | auto].
Qed.

Lemma select_candidates_In (now : Z) (dom : string) (st : store)
    (r : rule) :
  In r (select_candidates now dom st) <-> candidate now dom st r.
Proof.
  unfold select_candidates, candidate.
  rewrite filter_In, andb_true_iff, String.eqb_eq. tauto.
Qed.

(** * Resolution *)

(** What [findMatchingRule] returns was pushed by the loop, and split the
    [matches] array around a first maximum. *)
Lemma findMatchingRule_Some (now : Z) (st : store) (dom : string)
    (sub pth : jsstr) (keys : list string) (r : rule) :
  findMatchingRule now st dom sub pth keys = Some r ->
  exists total l1 l2,
    collect_matches (select_candidates now dom st) sub pth keys
    = (l1 ++ (r, total) :: l2)%list
    /\ Forall (fun x => (snd x < total)%Z) l1
    /\ Forall (fun x => (snd x <= total)%Z) l2.
Proof.
  unfold findMatchingRule, formatRule. intro H.
  destruct (sort_by by_score_desc _) as [|[r0 s] rest] eqn:Hs;
    [discriminate|].
  simpl in H. injection H as ->.
  destruct (sort_head_first_max _ _ _ Hs) as (l1 & l2 & Hl & H1 & H2).
  now exists s, l1, l2.
Qed.

Lemma findMatchingRule_scored (now : Z) (st : store) (dom : string)
    (sub pth : jsstr) (keys : list string) (r : rule) :
  findMatchingRule now st dom sub pth keys = Some r ->
  candidate now dom st r
  /\ exists total, score_rule r sub pth keys = Some total.
Proof.
  intro H. apply findMatchingRule_Some in H as (s & l1 & l2 & Hl & _).
  assert (Hin : In (r, s)
            (collect_matches (select_candidates now dom st) sub pth keys))
    by (rewrite Hl; apply in_elt).
  apply collect_matches_In in Hin as [Hin Hs].
  split; [now apply select_candidates_In | now exists s].
Qed.

Lemma findMatchingRule_None (now : Z) (st : store) (dom : string)
    (sub pth : jsstr) (keys : list string) :
  findMatchingRule now st dom sub pth keys = None ->
  forall r, candidate now dom st r -> score_rule r sub pth keys = None.
Proof.
  unfold findMatchingRule. intros H r Hc.
  destruct (sort_by by_score_desc _) as [|m rest] eqn:Hs; [|discriminate].
  apply sort_by_nil in Hs.
  destruct (score_rule r sub pth keys) as [s|] eqn:E; [|reflexivity].
  assert (Hin : In (r, s)
            (collect_matches (select_candidates now dom st) sub pth keys))
    by (apply collect_matches_In; split;
        [now apply select_candidates_In | assumption]).
  rewrite Hs in Hin. destruct Hin.
Qed.

(** C1, as amended: [findMatchingRule] looks at exactly the active rows of
    the request's domain, gives each the sum of its three sub-scores
    (a none path selector also taking the request path ["!"]), and returns
    a surviving candidate of maximum total, or nothing when none
    survives. *)
Theorem findMatchingRule_max_total (now : Z) (st : store) (dom : string)
    (sub pth : jsstr) (keys : list string) :
  match findMatchingRule now st dom sub pth keys with
  | Some r =>
      candidate now dom st r
      /\ exists total,
           spec_total_bang r sub pth keys = Some total
           /\ forall r' total',
                candidate now dom st r' ->
                spec_total_bang r' sub pth keys = Some total' ->
                (total' <= total)%Z
  | None =>
      forall r', candidate now dom st r' ->
                 spec_total_bang r' sub pth keys = None
  end.
Proof.
  destruct (findMatchingRule now st dom sub pth keys) as [r|] eqn:H.
  - destruct (findMatchingRule_scored _ _ _ _ _ _ _ H) as [Hc _].
    apply findMatchingRule_Some in H as (s & l1 & l2 & Hl & H1 & H2).
    split; [assumption|]. exists s. split.
    + rewrite <- score_rule_spec.
      apply (collect_matches_In (select_candidates now dom st)).
      rewrite Hl. apply in_elt.
    + intros r' t' Hc' Ht'. rewrite <- score_rule_spec in Ht'.
      assert (Hin : In (r', t')
                (collect_matches (select_candidates now dom st) sub pth keys))
        by (apply collect_matches_In; split;
            [now apply select_candidates_In | assumption]).
      rewrite Hl in Hin. apply in_app_or in Hin as [Hin | [E | Hin]].
      * rewrite Forall_forall in H1. apply H1 in Hin. simpl in Hin. lia.
      * injection E as _ <-. lia.
      * rewrite Forall_forall in H2. now apply H2 in Hin.
  - intros r' Hc. rewrite <- score_rule_spec.
    now apply (findMatchingRule_None _ _ _ _ _ _ H).
Qed.

(** C1, as worded, fails: a rule whose path is unset is returned for the
    request path ["!"], which is neither absent, empty nor the root. *)
Lemma findMatchingRule_takes_bang_path :
  findMatchingRule 1000 [root_rule] "example.com" (JStr "www") (JStr "!") []
  = Some root_rule
  /\ spec_total root_rule (JStr "www") (JStr "!") [] = None.
Proof. split; reflexivity. Qed.

(** Splitting [matches] splits the table at the same row. *)
Lemma collect_matches_split (now : Z) (dom : string) (sub pth : jsstr)
    (keys : list string) (st : store) :
  forall l1 r total l2,
    collect_matches (select_candidates now dom st) sub pth keys
    = (l1 ++ (r, total) :: l2)%list ->
    exists st1 st2,
      st = (st1 ++ r :: st2)%list
      /\ collect_matches (select_candidates now dom st1) sub pth keys = l1
      /\ collect_matches (select_candidates now dom st2) sub pth keys = l2.
Proof.
  induction st as [|x st IH]; intros l1 r total l2 H.
  - destruct l1; discriminate.
  - unfold select_candidates in *. simpl in H |- *.
    destruct (active now x && (domain x =? dom)) eqn:Hx; simpl in H.
    + destruct (score_rule x sub pth keys) as [sx|] eqn:Hsx.
      * destruct l1 as [|a l1]; simpl in H.
        -- injection H as -> _ H. exists [], st. simpl. auto.
        -- injection H as <- H.
           destruct (IH _ _ _ _ H) as (st1 & st2 & -> & E1 & E2).
           exists (x :: st1), st2. simpl. rewrite Hx. simpl.
           rewrite Hsx, E1. auto.
      * destruct (IH _ _ _ _ H) as (st1 & st2 & -> & E1 & E2).
        exists (x :: st1), st2. simpl. rewrite Hx. simpl.
        rewrite Hsx. auto.
    + destruct (IH _ _ _ _ H) as (st1 & st2 & -> & E1 & E2).
      exists (x :: st1), st2. simpl. rewrite Hx. auto.
Qed.

(** C3, as amended: the result is fixed by the row sequence and the
    request alone; among the surviving candidates of maximum total it is
    the one that comes first in the table's row order: every candidate
    before it scores strictly less, every candidate after it no more. *)
Theorem findMatchingRule_first_in_row_order (now : Z) (st : store)
    (dom : string) (sub pth : jsstr) (keys : list string) (r : rule) :
  findMatchingRule now st dom sub pth keys = Some r ->
  exists st1 st2 total,
    st = (st1 ++ r :: st2)%list
    /\ score_rule r sub pth keys = Some total
    /\ (forall r' total',
          In r' st1 -> active now r' = true -> domain r' = dom ->
          score_rule r' sub pth keys = Some total' -> (total' < total)%Z)
    /\ (forall r' total',
          In r' st2 -> active now r' = true -> domain r' = dom ->
          score_rule r' sub pth keys = Some total' -> (total' <= total)%Z).
Proof.
  intro H.
  destruct (findMatchingRule_scored _ _ _ _ _ _ _ H) as [_ [t Ht]].
  apply findMatchingRule_Some in H as (s & l1 & l2 & Hl & H1 & H2).
  assert (Hin : In (r, s)
            (collect_matches (select_candidates now dom st) sub pth keys))
    by (rewrite Hl; apply in_elt).
  apply collect_matches_In in Hin as [_ Hs].
  destruct (collect_matches_split _ _ _ _ _ _ _ _ _ _ Hl)
    as (st1 & st2 & -> & E1 & E2).
  exists st1, st2, s. split; [reflexivity|]. split; [assumption|].
  rewrite Forall_forall in H1, H2. split; intros r' t' Hin Ha Hd Hsc.
  - apply (H1 (r', t')). rewrite <- E1.
    apply collect_matches_In. split; [|assumption].
    apply select_candidates_In. repeat split; assumption.
  - apply (H2 (r', t')). rewrite <- E2.
    apply collect_matches_In. split; [|assumption].
    apply select_candidates_In. repeat split; assumption.
Qed.

Lemma findMatchingRule_first_in_row_order_witness :
  exists st1 st2 total,
    [tie_older; tie_newer] = (st1 ++ tie_older :: st2)%list
    /\ score_rule tie_older JNull (JStr "/") [] = Some total
    /\ (forall r' total',
          In r' st1 -> active 1000 r' = true -> domain r' = "example.com" ->
          score_rule r' JNull (JStr "/") [] = Some total' ->
          (total' < total)%Z)
    /\ (forall r' total',
          In r' st2 -> active 1000 r' = true -> domain r' = "example.com" ->
          score_rule r' JNull (JStr "/") [] = Some total' ->
          (total' <= total)%Z).
Proof.
  apply (findMatchingRule_first_in_row_order 1000 [tie_older; tie_newer]
           "example.com" JNull (JStr "/") [] tie_older).
  reflexivity.
Defined.

(** C3, as worded, fails: of two candidates that tie at the maximum the
    older one is returned, although the recommended tie-break puts the
    newer one first. *)
Lemma findMatchingRule_no_recency_tie_break :
  findMatchingRule 1000 [tie_older; tie_newer] "example.com" JNull
    (JStr "/") [] = Some tie_older
  /\ score_rule tie_older JNull (JStr "/") [] = Some 16%Z
  /\ score_rule tie_newer JNull (JStr "/") [] = Some 16%Z
  /\ recommended_before tie_newer tie_older = true.
Proof. repeat split; reflexivity. Qed.

(** * Query keys outside the allowed list *)

Lemma includes_In (l : list string) (key : string) :
  includes l key = true <-> In key l.
Proof.
  unfold includes. rewrite existsb_exists. split.
  - intros (x & Hin & E). apply String.eqb_eq in E. now subst.
  - intro Hin. exists key. split; [assumption | apply String.eqb_refl].
Qed.

Lemma check_query_outside (r : rule) (allowed keys : list string)
    (key : string) :
  query_params r = Some allowed ->
  In key keys -> ~ In key allowed ->
  check_query r keys = None.
Proof.
  intros Hq Hin Hout. unfold check_query. rewrite Hq.
  destruct (Nat.eqb (length allowed) 0).
  - destruct keys; [destruct Hin | reflexivity].
  - destruct (forallb (includes allowed) keys) eqn:Hall; [|reflexivity].
    rewrite forallb_forall in Hall. apply Hall in Hin.
    apply includes_In in Hin. contradiction.
Qed.

(** C4: a rule that lists its allowed query keys is never returned for a
    request that carries a key outside the list, whatever else is in the
    table and however well its subdomain and path fit. *)
Theorem findMatchingRule_rejects_unlisted_key (now : Z) (st : store)
    (dom : string) (sub pth : jsstr) (keys : list string) (r : rule)
    (allowed : list string) (key : string) :
  query_params r = Some allowed ->
  In key keys -> ~ In key allowed ->
  findMatchingRule now st dom sub pth keys <> Some r.
Proof.
  intros Hq Hin Hout H.
  apply findMatchingRule_scored in H as [_ [s Hs]].
  unfold score_rule in Hs.
  rewrite (check_query_outside r allowed keys key Hq Hin Hout) in Hs.
  destruct (check_subdomain r sub); [|discriminate].
  destruct (check_path r pth); discriminate.
Qed.

Lemma findMatchingRule_rejects_unlisted_key_witness :
  findMatchingRule 1000 [users_rule] "example.com" (JStr "api")
    (JStr "/users") ["id"; "invalid"] <> Some users_rule.
Proof.
  apply (findMatchingRule_rejects_unlisted_key 1000 [users_rule]
           "example.com" (JStr "api") (JStr "/users") ["id"; "invalid"]
           users_rule ["id"; "page"] "invalid").
  - reflexivity.
  - simpl. right. left. reflexivity.
  - simpl. intros [E | [E | []]]; discriminate E.
Defined.

(** * Expiry *)

Lemma active_iff (now : Z) (r : rule) :
  active now r = true <-> (now < expires_at r)%Z.
Proof. unfold active. apply Z.ltb_lt. Qed.

Lemma getActiveRules_In (now : Z) (st : store) (r : rule) :
  In r (getActiveRules now st) <-> In r st /\ (now < expires_at r)%Z.
Proof.
  unfold getActiveRules.
  now rewrite !sort_by_In, filter_In, active_iff.
Qed.

(** C5: a rule is active exactly when its expiry is strictly after the
    current time; a row whose expiry is not after it is left out of
    [getActiveRules] and is never the result of [findMatchingRule], yet
    [getAllRules] still lists it. *)
Theorem expired_rule_visibility (now : Z) (st : store) (r : rule) :
  In r st -> (expires_at r <= now)%Z ->
  (forall r', active now r' = true <-> (now < expires_at r')%Z)
  /\ active now r = false
  /\ ~ In r (getActiveRules now st)
  /\ (forall r', In r' (getActiveRules now st)
                 <-> In r' st /\ (now < expires_at r')%Z)
  /\ (forall dom sub pth keys,
        findMatchingRule now st dom sub pth keys <> Some r)
  /\ In r (getAllRules st).
Proof.
  intros Hin Hexp.
  assert (Hna : active now r = false)
    by (unfold active; apply Z.ltb_ge; assumption).
  split; [intro; apply active_iff|].
  split; [assumption|].
  split; [rewrite getActiveRules_In; lia|].
  split; [intro; apply getActiveRules_In|].
  split.
  - intros dom sub pth keys H.
    apply findMatchingRule_scored in H as [(_ & Ha & _) _]. congruence.
  - unfold getAllRules. now apply sort_by_In.
Qed.

Lemma expired_rule_visibility_witness :
  (forall r', active 1000 r' = true <-> (1000 < expires_at r')%Z)
  /\ active 1000 lapsed_rule = false
  /\ ~ In lapsed_rule (getActiveRules 1000 [users_rule; lapsed_rule])
  /\ (forall r', In r' (getActiveRules 1000 [users_rule; lapsed_rule])
                 <-> In r' [users_rule; lapsed_rule]
                     /\ (1000 < expires_at r')%Z)
  /\ (forall dom sub pth keys,
        findMatchingRule 1000 [users_rule; lapsed_rule] dom sub pth keys
        <> Some lapsed_rule)
  /\ In lapsed_rule (getAllRules [users_rule; lapsed_rule]).
Proof.
  apply (expired_rule_visibility 1000 [users_rule; lapsed_rule] lapsed_rule).
  - simpl. right. left. reflexivity.
  - simpl. lia.
Defined.

(** * Pruning *)

Lemma filter_split_perm {A : Type} (f : A -> bool) (l : list A) :
  Permutation l (filter f l ++ filter (fun x => negb (f x)) l)%list.
Proof.
  induction l as [|x l IH]; simpl; [apply perm_nil|].
  destruct (f x); simpl.
  - now apply perm_skip.
  - now apply Permutation_cons_app.
Qed.

Lemma filter_none {A : Type} (f : A -> bool) (l : list A) :
  Forall (fun x => f x = false) l -> filter f l = [].
Proof.
  induction 1 as [|x l Hx _ IH]; simpl; [reflexivity|]. now rewrite Hx.
Qed.

Lemma filter_all {A : Type} (f : A -> bool) (l : list A) :
  Forall (fun x => f x = true) l -> filter f l = l.
Proof.
  induction 1 as [|x l Hx _ IH]; simpl; [reflexivity|].
  now rewrite Hx, IH.
Qed.

Lemma prune_nothing (now : Z) (st : store) :
  Forall (fun r => (now < expires_at r)%Z) st ->
  pruneExpiredRules now st = (Ok 0%nat, st).
Proof.
  intro H. unfold pruneExpiredRules.
  assert (Hf : Forall (fun r => expired now r = false) st).
  { eapply Forall_impl; [|exact H]. simpl. intros r Hr.
    unfold expired. apply Z.leb_gt. assumption. }
  rewrite (filter_none _ _ Hf). rewrite filter_all; [reflexivity|].
  eapply Forall_impl; [|exact Hf]. simpl. intros r ->. reflexivity.
Qed.

(** C6: [pruneExpiredRules] splits the table into the rows whose expiry
    is not after [now], which it deletes and counts, and the rows whose
    expiry is later, which it keeps as they are; a further call that
    finds no expired row deletes nothing and yields 0, in particular a
    second call at the same [now]. *)
Theorem pruneExpiredRules_exact (now : Z) (st : store) :
  exists removed kept,
    pruneExpiredRules now st = (Ok (length removed), kept)
    /\ Permutation st (removed ++ kept)%list
    /\ Forall (fun r => (expires_at r <= now)%Z) removed
    /\ Forall (fun r => (now < expires_at r)%Z) kept
    /\ (forall r, In r kept <-> In r st /\ (now < expires_at r)%Z)
    /\ pruneExpiredRules now kept = (Ok 0%nat, kept)
    /\ (forall now', Forall (fun r => (now' < expires_at r)%Z) kept ->
                     pruneExpiredRules now' kept = (Ok 0%nat, kept)).
Proof.
  exists (filter (expired now) st),
         (filter (fun r => negb (expired now r)) st).
  assert (Hkept : Forall (fun r => (now < expires_at r)%Z)
                    (filter (fun r => negb (expired now r)) st)).
  { apply Forall_forall. intros r Hr. apply filter_In in Hr as [_ Hr].
    unfold expired in Hr. apply negb_true_iff, Z.leb_gt in Hr. assumption. }
  split; [reflexivity|].
  split; [apply filter_split_perm|].
  split.
  { apply Forall_forall. intros r Hr. apply filter_In in Hr as [_ Hr].
    unfold expired in Hr. now apply Z.leb_le in Hr. }
  split; [assumption|].
  split.
  { intro r. rewrite filter_In. unfold expired.
    rewrite negb_true_iff, Z.leb_gt. tauto. }
  split; [now apply prune_nothing|].
  intros now' H. now apply prune_nothing.
Qed.

(** * Creation *)

Lemma existsb_has_id (st : store) (r : rule) :
  In r st -> existsb (has_id (rule_id r)) st = true.
Proof.
  intro Hin. apply existsb_exists. exists r.
  split; [assumption | apply String.eqb_refl].
Qed.

Lemma find_has_id_app (st : store) (r : rule) :
  existsb (has_id (rule_id r)) st = false ->
  find (has_id (rule_id r)) (st ++ [r])%list = Some r.
Proof.
  induction st as [|x st IH]; simpl; intro H.
  - unfold has_id. now rewrite String.eqb_refl.
  - apply orb_false_elim in H as [Hx H]. rewrite Hx. now apply IH.
Qed.

(** On a table without the id, [createRule] appends the row, stamped
    with the current time, and returns it as [getRule] reads it back. *)
Lemma createRule_fresh (code : string) (now : Z) (st : store)
    (dom : jsstr) (sub pth : option string) (q : option (list string))
    (url : string) (expiresAt : Z) :
  truthy dom = true ->
  existsb (has_id (generateRuleId dom (of_column sub) (of_column pth) q)) st
  = false ->
  let row := mkRule (generateRuleId dom (of_column sub) (of_column pth) q)
               (template dom) sub pth q url expiresAt now now in
  createRule code now dom sub pth q url expiresAt st
  = (Ok (Some row), (st ++ [row])%list).
Proof.
  intros Hd Hfresh row. unfold createRule. rewrite Hd. cbn [negb].
  unfold try_catch, bind, insert_row, getRule. cbn [rule_id].
  rewrite Hfresh. fold row.
  pose proof (find_has_id_app st row Hfresh) as Hfind.
  change (rule_id row)
    with (generateRuleId dom (of_column sub) (of_column pth) q) in Hfind.
  now rewrite Hfind.
Qed.

(** When the table already holds a row under the id that the arguments
    encode to, [createRule] throws and the table is left as it was; what
    is thrown depends on the code the engine reports. *)
Lemma createRule_on_taken_id (code : string) (now : Z) (st : store)
    (dom : jsstr) (sub pth : option string) (q : option (list string))
    (url : string) (expiresAt : Z) (existing : rule) :
  truthy dom = true ->
  In existing st ->
  rule_id existing
  = generateRuleId dom (of_column sub) (of_column pth) q ->
  createRule code now dom sub pth q url expiresAt st
  = (Throw (if code =? "SQLITE_CONSTRAINT"
            then Error "Rule with this ID already exists"
            else SqliteError code), st).
Proof.
  intros Hd Hin Hid. unfold createRule. rewrite Hd.
  cbn [negb]. unfold try_catch, bind, insert_row.
  cbn [rule_id]. rewrite <- Hid. rewrite (existsb_has_id _ _ Hin).
  destruct (code =? "SQLITE_CONSTRAINT"); reflexivity.
Qed.

(** C7: a second create under an id that the table holds does fail and
    does leave the table unchanged, but not with the duplicate error:
    the engine reports the clash as SQLITE_CONSTRAINT_PRIMARYKEY, the
    catch clause looks for SQLITE_CONSTRAINT, and so the engine's own
    error is thrown on, never 'Rule with this ID already exists'. *)
Theorem createRule_duplicate_raw_error (now : Z) (st : store)
    (dom : jsstr) (sub pth : option string) (q : option (list string))
    (url : string) (expiresAt : Z) (existing : rule) :
  truthy dom = true ->
  In existing st ->
  rule_id existing
  = generateRuleId dom (of_column sub) (of_column pth) q ->
  createRule primary_key_violation now dom sub pth q url expiresAt st
  = (Throw (SqliteError primary_key_violation), st)
  /\ createRule primary_key_violation now dom sub pth q url expiresAt st
     <> (Throw (Error "Rule with this ID already exists"), st).
Proof.
  intros Hd Hin Hid.
  rewrite (createRule_on_taken_id primary_key_violation now st dom sub pth q
             url expiresAt existing Hd Hin Hid).
  split; [reflexivity | discriminate].
Qed.

Lemma createRule_duplicate_raw_error_witness :
  createRule primary_key_violation 2000 (JStr "example.com")
    (Some "api") (Some "/users") (Some ["id"; "page"]) "http://other:1" 9000
    [users_rule]
  = (Throw (SqliteError primary_key_violation), [users_rule])
  /\ createRule primary_key_violation 2000 (JStr "example.com")
       (Some "api") (Some "/users") (Some ["id"; "page"]) "http://other:1"
       9000 [users_rule]
     <> (Throw (Error "Rule with this ID already exists"), [users_rule]).
Proof.
  apply (createRule_duplicate_raw_error 2000 [users_rule]
           (JStr "example.com") (Some "api") (Some "/users")
           (Some ["id"; "page"]) "http://other:1" 9000 users_rule).
  - reflexivity.
  - simpl. left. reflexivity.
  - reflexivity.
Defined.

(** C8, as amended: [generateRuleId] checks nothing and always returns an
    id; it is [createRule] that refuses a domain that is empty, [null] or
    [undefined], before anything is written. *)
Theorem createRule_domain_mandatory (code : string) (now : Z) (st : store)
    (dom : jsstr) (sub pth : option string) (q : option (list string))
    (url : string) (expiresAt : Z) :
  truthy dom = false ->
  createRule code now dom sub pth q url expiresAt st
  = (Throw (Error "Domain is mandatory"), st).
Proof.
  intro Hd. unfold createRule. rewrite Hd. reflexivity.
Qed.

Lemma createRule_domain_mandatory_witness :
  createRule "SQLITE_CONSTRAINT" 2000 (JStr "") (Some "api")
    (Some "/test") None "http://test:8080" 9000 [users_rule]
  = (Throw (Error "Domain is mandatory"), [users_rule]).
Proof.
  apply (createRule_domain_mandatory "SQLITE_CONSTRAINT" 2000 [users_rule]
           (JStr "") (Some "api") (Some "/test") None "http://test:8080"
           9000).
  reflexivity.
Defined.

(** C8, as worded, fails: with an empty domain [generateRuleId] returns an
    id string like any other. *)
Lemma generateRuleId_empty_domain :
  generateRuleId (JStr "") (JStr "api") (JStr "/users") (Some ["id"])
  = "api./users/[id]"
  /\ generateRuleId (JStr "") JNull JNull None = "!./!".
Proof. split; reflexivity. Qed.

(** * Update *)

Lemma apply_clauses_identity (now : Z) (clauses : list set_clause) :
  forall r, same_identity r (fold_left (apply_clause now) clauses r).
Proof.
  induction clauses as [|c clauses IH]; intro r; simpl.
  - repeat split.
  - destruct (IH (apply_clause now r c)) as (H1 & H2 & H3 & H4 & H5 & H6).
    unfold same_identity.
    rewrite H1, H2, H3, H4, H5, H6. destruct c; repeat split.
Qed.

Lemma run_update_frame (now : Z) (clauses : list set_clause)
    (ruleId : string) (st : store) :
  Forall2 (fun r r' => same_identity r r' /\ (rule_id r <> ruleId -> r' = r))
    st (snd (run_update now clauses ruleId st)).
Proof.
  unfold run_update. simpl.
  induction st as [|x st IH]; simpl; constructor; [|assumption].
  unfold has_id. destruct (String.eqb_spec (rule_id x) ruleId) as [E|E].
  - split; [apply apply_clauses_identity | contradiction].
  - split; [repeat split | reflexivity].
Qed.

(** C9: after a successful [updateRule] the table has the same rows in
    the same places; each keeps its id, domain, subdomain, path, query
    parameters and creation time, and every row under another id is
    unchanged altogether. *)
Theorem updateRule_frame (now : Z) (ruleId : string) (u : updates)
    (st st' : store) (res : option rule) :
  updateRule now ruleId u st = (Ok res, st') ->
  Forall2 (fun r r' =>
             rule_id r' = rule_id r
             /\ domain r' = domain r
             /\ subdomain r' = subdomain r
             /\ path r' = path r
             /\ query_params r' = query_params r
             /\ created_at r' = created_at r
             /\ (rule_id r <> ruleId -> r' = r))
    st st'.
Proof.
  unfold updateRule. intro H.
  destruct (Nat.eqb (length _) 0); [discriminate|].
  unfold bind in H.
  pose proof (run_update_frame now
    (((match upd_downstream_url u with
       | Some v => [Set_downstream_url v] | None => [] end)
      ++ (match upd_expires_at u with
          | Some v => [Set_expires_at v] | None => [] end))
     ++ [Set_updated_at_now])%list ruleId st) as Hf.
  destruct (run_update now _ ruleId st) as [[n|e] st1] eqn:Hr;
    [|discriminate].
  simpl in Hf.
  assert (st1 = st').
  { destruct (Nat.eqb n 0); [discriminate|].
    unfold getRule in H. now injection H. }
  subst st1. eapply Forall2_impl; [|exact Hf].
  intros r r' [(H1 & H2 & H3 & H4 & H5 & H6) H7]. repeat split; assumption.
Qed.

Lemma updateRule_frame_witness :
  Forall2 (fun r r' =>
             rule_id r' = rule_id r
             /\ domain r' = domain r
             /\ subdomain r' = subdomain r
             /\ path r' = path r
             /\ query_params r' = query_params r
             /\ created_at r' = created_at r
             /\ (rule_id r <> "api.example.com/users/[id,page]" -> r' = r))
    [users_rule; lapsed_rule]
    [mkRule "api.example.com/users/[id,page]" "example.com" (Some "api")
       (Some "/users") (Some ["id"; "page"]) "http://new-backend:8080" 4600
       1000 2000;
     lapsed_rule].
Proof.
  apply (updateRule_frame 2000 "api.example.com/users/[id,page]"
           (mkUpdates (Some "http://new-backend:8080") None ["note"])
           [users_rule; lapsed_rule] _
           (Some (mkRule "api.example.com/users/[id,page]" "example.com"
                    (Some "api") (Some "/users") (Some ["id"; "page"])
                    "http://new-backend:8080" 4600 1000 2000))).
  reflexivity.
Defined.

(** * The forms of "no subdomain" *)

(** C10, as amended: [null], [undefined], the empty string and ["!"] as
    subdomain all encode to one id, which starts with ["!."]; a row whose
    stored subdomain is [NULL], empty or ["!"] is scored alike by the
    loop: excluded when the request carries a subdomain, and otherwise
    given 10 points on top of its path and query points; and such a row
    is never the result for a request that carries a subdomain. *)
Theorem no_subdomain_forms_agree (dom pth : jsstr)
    (q : option (list string)) (r : rule) (sub reqPath : jsstr)
    (keys : list string) :
  (generateRuleId dom JUndefined pth q = generateRuleId dom JNull pth q
   /\ generateRuleId dom (JStr "") pth q = generateRuleId dom JNull pth q
   /\ generateRuleId dom (JStr "!") pth q = generateRuleId dom JNull pth q
   /\ exists rest, generateRuleId dom JNull pth q = "!." ++ rest)
  /\ (forall c,
        c = None \/ c = Some "" \/ c = Some "!" ->
        score_rule (with_subdomain r c) sub reqPath keys
        = if truthy sub then None
          else match check_path r reqPath, check_query r keys with
               | Some s2, Some s3 => Some (10 + s2 + s3)%Z
               | _, _ => None
               end)
  /\ (forall now st domain' r',
        findMatchingRule now st domain' sub reqPath keys = Some r' ->
        subdomain r' = None \/ subdomain r' = Some ""
        \/ subdomain r' = Some "!" ->
        truthy sub = false).
Proof.
  split; [|split].
  - repeat split; try reflexivity.
    unfold generateRuleId.
    destruct (null_undef_or_empty pth), (is_str pth "*"),
      (negb (startsWith_slash (template pth))), q as [[|k ks]|];
      eexists; reflexivity.
  - intros c Hc.
    assert (Hsub : check_subdomain (with_subdomain r c) sub
                   = if truthy sub then None else Some 10%Z)
      by (destruct Hc as [-> | [-> | ->]]; reflexivity).
    unfold score_rule. rewrite Hsub.
    change (check_path (with_subdomain r c) reqPath)
      with (check_path r reqPath).
    change (check_query (with_subdomain r c) keys)
      with (check_query r keys).
    destruct (truthy sub); [reflexivity|].
    destruct (check_path r reqPath); [|reflexivity].
    destruct (check_query r keys); reflexivity.
  - intros now st domain' r' H Hc.
    apply findMatchingRule_scored in H as [_ [s Hs]].
    unfold score_rule in Hs.
    assert (Hsub : check_subdomain r' sub
                   = if truthy sub then None else Some 10%Z)
      by (unfold check_subdomain;
          destruct Hc as [-> | [-> | ->]]; reflexivity).
    rewrite Hsub in Hs. destruct (truthy sub); [discriminate | reflexivity].
Qed.

(** C10, as worded, fails: the four values are told apart elsewhere.  As
    the subdomain of a request ["!"] is a subdomain like any other, so a
    rule for no subdomain answers [null], [undefined] and the empty
    string but not ["!"]; and [createRule] stores the subdomain as it is
    given, so the rows created with [null] and with ["!"] differ though
    their ids agree. *)
Lemma no_subdomain_forms_told_apart :
  findMatchingRule 1000 [tie_older] "example.com" JNull (JStr "/x") []
  = Some tie_older
  /\ findMatchingRule 1000 [tie_older] "example.com" JUndefined (JStr "/x") []
     = Some tie_older
  /\ findMatchingRule 1000 [tie_older] "example.com" (JStr "") (JStr "/x") []
     = Some tie_older
  /\ findMatchingRule 1000 [tie_older] "example.com" (JStr "!") (JStr "/x") []
     = None
  /\ fst (createRule primary_key_violation 100 (JStr "example.com") None
            (Some "*") None "http://first:1" 5000 [])
     = Ok (Some tie_older)
  /\ fst (createRule primary_key_violation 100 (JStr "example.com")
            (Some "!") (Some "*") None "http://first:1" 5000 [])
     = Ok (Some (with_subdomain tie_older (Some "!")))
  /\ with_subdomain tie_older (Some "!") <> tie_older.
Proof.
  repeat split; try reflexivity. intro H. discriminate H.
Qed.

(** * Strings *)

Lemma append_nil_r (s : string) : s ++ "" = s.
Proof. induction s as [|a s IH]; simpl; [reflexivity | now rewrite IH]. Qed.

Lemma append_assoc (a b c : string) : (a ++ b) ++ c = a ++ b ++ c.
Proof. induction a as [|x a IH]; simpl; [reflexivity | now rewrite IH]. Qed.

Lemma list_ascii_of_string_append (a b : string) :
  list_ascii_of_string (a ++ b)
  = (list_ascii_of_string a ++ list_ascii_of_string b)%list.
Proof. induction a as [|x a IH]; simpl; [reflexivity | now rewrite IH]. Qed.

Lemma append_inv_tail (a b c : string) : a ++ c = b ++ c -> a = b.
Proof.
  intro H. apply (f_equal list_ascii_of_string) in H.
  rewrite !list_ascii_of_string_append in H. apply app_inv_tail in H.
  rewrite <- (string_of_list_ascii_of_string a),
          <- (string_of_list_ascii_of_string b).
  now rewrite H.
Qed.

Lemma append_snoc (t : string) (a : ascii) (x : string) :
  t ++ String a x = (t ++ String a "") ++ x.
Proof. now rewrite append_assoc. Qed.

Lemma occurs_append (c : ascii) (a b : string) :
  occurs c (a ++ b) = occurs c a || occurs c b.
Proof.
  induction a as [|x a IH]; simpl; [reflexivity|].
  now rewrite IH, orb_assoc.
Qed.

(** Two texts free of [c] that are followed by [c] end at the same place. *)
Lemma split_at_first (c : ascii) (a1 : string) :
  forall a2 x y,
    occurs c a1 = false -> occurs c a2 = false ->
    a1 ++ String c x = a2 ++ String c y ->
    a1 = a2 /\ x = y.
Proof.
  induction a1 as [|h a1 IH]; intros [|k a2] x y H1 H2 H; simpl in *.
  - injection H as ->. auto.
  - injection H as -> _. rewrite Ascii.eqb_refl in H2. discriminate.
  - injection H as <- _. rewrite Ascii.eqb_refl in H1. discriminate.
  - injection H as -> H.
    apply orb_false_elim in H1 as [_ H1].
    apply orb_false_elim in H2 as [_ H2].
    destruct (IH _ _ _ H1 H2 H) as [-> ->]. auto.
Qed.

(** * Joined keys *)

Lemma append_inv_head (a b c : string) : a ++ b = a ++ c -> b = c.
Proof.
  induction a as [|x a IH]; simpl; intro H; [assumption|].
  injection H as H. now apply IH.
Qed.

Lemma append_char_not_empty (a : string) (c : ascii) (b : string) :
  a ++ String c b <> "".
Proof. destruct a; discriminate. Qed.

Lemma canonical_policy_inv (ks : list string) :
  canonical_policy (AllowList ks) = true ->
  ks <> [] /\ join_comma ks <> ""
  /\ Forall (fun k => occurs "," k = false) ks.
Proof.
  unfold canonical_policy. rewrite andb_true_iff. intros [Hshape Hcomma].
  assert (Hfree : Forall (fun k => occurs "," k = false) ks).
  { apply Forall_forall. intros k Hk.
    rewrite forallb_forall in Hcomma. apply Hcomma in Hk.
    now apply negb_true_iff in Hk. }
  destruct ks as [|k [|k' ks]]; [discriminate| |].
  - apply negb_true_iff, String.eqb_neq in Hshape.
    repeat split; [discriminate | exact Hshape | exact Hfree].
  - repeat split; [discriminate | | exact Hfree].
    change (k ++ String "," (join_comma (k' :: ks)) <> "").
    apply append_char_not_empty.
Qed.

Lemma join_comma_inj (l1 : list string) :
  forall l2,
    l1 <> [] -> l2 <> [] ->
    Forall (fun k => occurs "," k = false) l1 ->
    Forall (fun k => occurs "," k = false) l2 ->
    join_comma l1 = join_comma l2 -> l1 = l2.
Proof.
  induction l1 as [|x l1 IH]; intros [|y l2] N1 N2 C1 C2 H;
    try contradiction.
  inversion C1 as [|? ? Cx C1']; inversion C2 as [|? ? Cy C2']; subst.
  destruct l1 as [|x' l1], l2 as [|y' l2].
  - simpl in H. now subst.
  - exfalso. change (x = y ++ String "," (join_comma (y' :: l2))) in H.
    rewrite H, occurs_append in Cx. simpl in Cx.
    rewrite orb_true_r in Cx. discriminate.
  - exfalso. change (x ++ String "," (join_comma (x' :: l1)) = y) in H.
    rewrite <- H, occurs_append in Cy. simpl in Cy.
    rewrite orb_true_r in Cy. discriminate.
  - change (x ++ String "," (join_comma (x' :: l1))
            = y ++ String "," (join_comma (y' :: l2))) in H.
    destruct (split_at_first _ _ _ _ _ Cx Cy H) as [-> H'].
    f_equal. apply IH; try assumption; discriminate.
Qed.

(** * Texts around a slash and a bracket *)

Lemma occurs_pair_tail (a b x : ascii) (t : string) :
  occurs_pair a b (String x t) = false -> occurs_pair a b t = false.
Proof. simpl. intro H. now apply orb_false_elim in H. Qed.

Lemma occurs_pair_found (a b : ascii) (t x : string) :
  occurs_pair a b (t ++ String a (String b x)) = true.
Proof.
  induction t as [|c t IH]; simpl.
  - now rewrite !Ascii.eqb_refl.
  - rewrite IH. apply orb_true_r.
Qed.

(** Two texts free of the pair that are followed by the pair end at the
    same place. *)
Lemma split_at_pair (a b : ascii) (t1 : string) :
  a <> b ->
  forall t2 x y,
    occurs_pair a b t1 = false -> occurs_pair a b t2 = false ->
    t1 ++ String a (String b x) = t2 ++ String a (String b y) ->
    t1 = t2 /\ x = y.
Proof.
  intro Hab. induction t1 as [|h t1 IH]; intros [|k t2] x y H1 H2 H.
  - simpl in H. injection H as ->. auto.
  - exfalso. simpl in H. injection H as <- H.
    destruct t2 as [|k2 t2]; simpl in H; injection H as Hk _.
    + now apply Hab.
    + subst k2. simpl in H2. now rewrite !Ascii.eqb_refl in H2.
  - exfalso. simpl in H. injection H as -> H.
    destruct t1 as [|h2 t1]; simpl in H; injection H as Hh _.
    + now apply Hab.
    + subst h2. simpl in H1. now rewrite !Ascii.eqb_refl in H1.
  - simpl in H. injection H as -> H.
    apply occurs_pair_tail in H1. apply occurs_pair_tail in H2.
    destruct (IH _ _ _ H1 H2 H) as [-> ->]. auto.
Qed.

Lemma slash_free_prefix (d : string) :
  exists d0 rest,
    d = d0 ++ rest /\ occurs "/" d0 = false
    /\ (rest = "" \/ exists u, rest = String "/" u).
Proof.
  induction d as [|c d (d0 & rest & E & Hfree & Hrest)].
  - exists "", "". auto.
  - destruct (Ascii.eqb_spec c "/") as [->|Hc].
    + exists "", (String "/" d). repeat split. right. now exists d.
    + exists (String c d0), rest. subst d. repeat split; [|assumption].
      simpl. rewrite Hfree. apply Ascii.eqb_neq in Hc. now rewrite Hc.
Qed.

(** * The id of a canonical tuple follows the grammar *)

Lemma canonical_subdomain_inv (v : string) :
  canonical_subdomain (SelExact v) = true ->
  v <> "" /\ v <> "*" /\ v <> "!" /\ occurs "/" v = false.
Proof.
  unfold canonical_subdomain.
  rewrite !andb_true_iff, !negb_true_iff, !String.eqb_neq. tauto.
Qed.

Lemma canonical_path_inv (v : string) :
  canonical_path (SelExact v) = true ->
  exists t,
    v = String "/" t /\ t <> "*" /\ t <> "!"
    /\ occurs_pair "/" "[" t = false.
Proof.
  unfold canonical_path. destruct v as [|c t]; [discriminate|].
  rewrite !andb_true_iff, !negb_true_iff, !String.eqb_neq.
  intros [[[Hc H1] H2] H3]. apply Ascii.eqb_eq in Hc. subst c.
  exists t. auto.
Qed.

Lemma encode_grammar (dom : string) (sub pth : Selector) (q : QueryPolicy) :
  canonical_subdomain sub = true -> canonical_path pth = true ->
  encode dom sub pth q
  = (subdomain_part sub ++ "." ++ dom) ++ path_part pth ++ query_part q.
Proof.
  intros Hs Hp. unfold encode, generateRuleId.
  assert (Hsub :
    (if null_undef_or_empty (selector_arg sub)
     then "!." ++ template (JStr dom)
     else template (selector_arg sub) ++ "." ++ template (JStr dom))
    = subdomain_part sub ++ "." ++ dom).
  { destruct sub as [| |v]; try reflexivity.
    apply canonical_subdomain_inv in Hs as [Hv _].
    destruct v; [contradiction | reflexivity]. }
  rewrite Hsub. clear Hsub.
  set (base := subdomain_part sub ++ "." ++ dom).
  assert (Hpath :
    (if null_undef_or_empty (selector_arg pth) then base ++ "/!"
     else if is_str (selector_arg pth) "*" then base ++ "/*"
     else if negb (startsWith_slash (template (selector_arg pth)))
          then base ++ "/" ++ template (selector_arg pth)
          else base ++ template (selector_arg pth))
    = base ++ path_part pth).
  { destruct pth as [| |v]; try reflexivity.
    apply canonical_path_inv in Hp as (t & -> & _). reflexivity. }
  rewrite Hpath. clear Hpath.
  destruct q as [| |[|k ks]]; simpl policy_arg; cbv iota;
    unfold query_part; rewrite ?append_assoc, ?append_nil_r; reflexivity.
Qed.

Lemma subdomain_part_no_slash (s : Selector) :
  canonical_subdomain s = true -> occurs "/" (subdomain_part s) = false.
Proof.
  destruct s as [| |v]; try reflexivity.
  intro H. now apply canonical_subdomain_inv in H.
Qed.

Lemma subdomain_part_inj (s1 s2 : Selector) :
  canonical_subdomain s1 = true -> canonical_subdomain s2 = true ->
  subdomain_part s1 = subdomain_part s2 -> s1 = s2.
Proof.
  intros H1 H2 H.
  destruct s1 as [| |v1], s2 as [| |v2]; simpl in H;
    try reflexivity; try discriminate;
    try (apply canonical_subdomain_inv in H1 as (? & ? & ? & _));
    try (apply canonical_subdomain_inv in H2 as (? & ? & ? & _));
    congruence.
Qed.

(** The text after the leading slash of a path segment. *)
Lemma path_part_tail (p : Selector) :
  canonical_path p = true ->
  exists t, path_part p = String "/" t /\ occurs_pair "/" "[" t = false.
Proof.
  destruct p as [| |v]; intro H.
  - exists "*". split; reflexivity.
  - exists "!". split; reflexivity.
  - apply canonical_path_inv in H as (t & -> & _ & _ & H).
    exists t. split; [reflexivity | assumption].
Qed.

Lemma path_part_inj (p1 p2 : Selector) :
  canonical_path p1 = true -> canonical_path p2 = true ->
  path_part p1 = path_part p2 -> p1 = p2.
Proof.
  intros H1 H2 H.
  destruct p1 as [| |v1], p2 as [| |v2];
    try reflexivity; try discriminate;
    try (apply canonical_path_inv in H1 as (t1 & -> & ? & ? & _));
    try (apply canonical_path_inv in H2 as (t2 & -> & ? & ? & _));
    simpl in H; congruence.
Qed.

Lemma bracket_split (t1 t2 j1 j2 : string) :
  occurs_pair "/" "[" t1 = false -> occurs_pair "/" "[" t2 = false ->
  t1 ++ "/[" ++ j1 ++ "]" = t2 ++ "/[" ++ j2 ++ "]" ->
  t1 = t2 /\ j1 = j2.
Proof.
  intros H1 H2 H.
  change (t1 ++ String "/" (String "[" (j1 ++ "]"))
          = t2 ++ String "/" (String "[" (j2 ++ "]"))) in H.
  apply split_at_pair in H as [Ht Hj]; try assumption; [|discriminate].
  split; [assumption | now apply append_inv_tail in Hj].
Qed.

Lemma bracket_absent (t1 t2 j : string) :
  occurs_pair "/" "[" t1 = false ->
  t1 ++ "" = t2 ++ "/[" ++ j ++ "]" -> False.
Proof.
  intros H1 H. rewrite append_nil_r in H. subst t1.
  change (t2 ++ "/[" ++ j ++ "]")
    with (t2 ++ String "/" (String "[" (j ++ "]"))) in H1.
  rewrite occurs_pair_found in H1. discriminate.
Qed.

Lemma query_part_split (t1 t2 : string) (q1 q2 : QueryPolicy) :
  occurs_pair "/" "[" t1 = false -> occurs_pair "/" "[" t2 = false ->
  canonical_policy q1 = true -> canonical_policy q2 = true ->
  t1 ++ query_part q1 = t2 ++ query_part q2 ->
  t1 = t2 /\ q1 = q2.
Proof.
  intros H1 H2 C1 C2 H.
  destruct q1 as [| |ks1], q2 as [| |ks2]; unfold query_part in H.
  - rewrite !append_nil_r in H. auto.
  - exfalso. exact (bracket_absent t1 t2 "" H1 H).
  - exfalso. exact (bracket_absent t1 t2 _ H1 H).
  - exfalso. symmetry in H. exact (bracket_absent t2 t1 "" H2 H).
  - change "/[]" with ("/[" ++ "" ++ "]") in H.
    apply bracket_split in H as [-> _]; auto.
  - change "/[]" with ("/[" ++ "" ++ "]") in H.
    apply bracket_split in H as [_ Hj]; try assumption.
    destruct (canonical_policy_inv _ C2) as (_ & N & _).
    exfalso. now apply N.
  - exfalso. symmetry in H. exact (bracket_absent t2 t1 _ H2 H).
  - change "/[]" with ("/[" ++ "" ++ "]") in H.
    apply bracket_split in H as [_ Hj]; try assumption.
    destruct (canonical_policy_inv _ C1) as (_ & N & _).
    exfalso. now apply N.
  - apply bracket_split in H as [-> Hj]; try assumption.
    destruct (canonical_policy_inv _ C1) as (N1 & _ & K1).
    destruct (canonical_policy_inv _ C2) as (N2 & _ & K2).
    split; [reflexivity|]. f_equal. now apply join_comma_inj.
Qed.

(** Whatever the domain, the subdomain text of an id ends at the first
    slash-free stretch before the domain. *)
Lemma subdomain_text_inj (dom a1 a2 t1 t2 : string) :
  occurs "/" a1 = false -> occurs "/" a2 = false ->
  (a1 ++ "." ++ dom) ++ String "/" t1 = (a2 ++ "." ++ dom) ++ String "/" t2 ->
  a1 = a2.
Proof.
  intros F1 F2 H.
  destruct (slash_free_prefix dom) as (d0 & rest & -> & Fd & Hrest).
  assert (Hshape : forall a t,
            exists w, (a ++ "." ++ d0 ++ rest) ++ String "/" t
                      = (a ++ "." ++ d0) ++ String "/" w).
  { intros a t. destruct Hrest as [-> | [u ->]].
    - exists t. now rewrite append_nil_r.
    - exists (u ++ String "/" t).
      rewrite !append_assoc. simpl. rewrite ?append_assoc. reflexivity. }
  destruct (Hshape a1 t1) as [w1 E1]. destruct (Hshape a2 t2) as [w2 E2].
  rewrite E1, E2 in H.
  apply split_at_first in H as [H _].
  - change (a1 ++ "." ++ d0) with (a1 ++ String "." d0) in H.
    change (a2 ++ "." ++ d0) with (a2 ++ String "." d0) in H.
    now apply append_inv_tail in H.
  - rewrite occurs_append, F1. simpl. assumption.
  - rewrite occurs_append, F2. simpl. assumption.
Qed.

(** C2, as amended: the encoding is a function of its arguments, and for
    every domain it is injective on the selector tuples in canonical
    form. *)
Theorem encode_injective_canonical (dom : string)
    (s1 p1 : Selector) (q1 : QueryPolicy)
    (s2 p2 : Selector) (q2 : QueryPolicy) :
  canonical s1 p1 q1 = true -> canonical s2 p2 q2 = true ->
  encode dom s1 p1 q1 = encode dom s2 p2 q2 ->
  s1 = s2 /\ p1 = p2 /\ q1 = q2.
Proof.
  unfold canonical. rewrite !andb_true_iff.
  intros [[Cs1 Cp1] Cq1] [[Cs2 Cp2] Cq2] H.
  rewrite !encode_grammar in H by assumption.
  destruct (path_part_tail p1 Cp1) as (t1 & E1 & B1).
  destruct (path_part_tail p2 Cp2) as (t2 & E2 & B2).
  rewrite E1, E2 in H.
  change (String "/" t1 ++ query_part q1)
    with (String "/" (t1 ++ query_part q1)) in H.
  change (String "/" t2 ++ query_part q2)
    with (String "/" (t2 ++ query_part q2)) in H.
  assert (Hsub : subdomain_part s1 = subdomain_part s2).
  { eapply subdomain_text_inj; [| |exact H];
      now apply subdomain_part_no_slash. }
  rewrite Hsub in H. apply append_inv_head in H. injection H as Htail.
  apply subdomain_part_inj in Hsub; try assumption.
  apply query_part_split in Htail as [Ht Hq]; try assumption.
  split; [assumption|]. split; [|assumption].
  apply path_part_inj; try assumption. congruence.
Qed.

Lemma encode_injective_canonical_witness :
  SelExact "api" = SelExact "api"
  /\ SelExact "/users" = SelExact "/users"
  /\ AllowList ["id"; "page"] = AllowList ["id"; "page"].
Proof.
  apply (encode_injective_canonical "example.com"
           (SelExact "api") (SelExact "/users") (AllowList ["id"; "page"])
           (SelExact "api") (SelExact "/users") (AllowList ["id"; "page"]));
    reflexivity.
Defined.

(** Each condition of the canonical form keeps two tuples with one id
    apart: a subdomain or path that reads as a marker, a slash in the
    subdomain, a missing leading slash, a later path segment that opens
    with a bracket, the empty allow-list, the single empty key, a comma
    in a key. *)
Lemma canonical_form_is_needed :
  let enc := encode "example.com" in
  enc (SelExact "") SelAny AllowAll = enc SelNone SelAny AllowAll
  /\ enc (SelExact "*") SelAny AllowAll = enc SelAny SelAny AllowAll
  /\ enc (SelExact "!") SelAny AllowAll = enc SelNone SelAny AllowAll
  /\ enc (SelExact "a.example.com/x") (SelExact "/y") AllowAll
     = enc (SelExact "a") (SelExact "/x.example.com/y") AllowAll
  /\ enc SelAny (SelExact "users") AllowAll
     = enc SelAny (SelExact "/users") AllowAll
  /\ enc SelAny (SelExact "/*") AllowAll = enc SelAny SelAny AllowAll
  /\ enc SelAny (SelExact "/!") AllowAll = enc SelAny SelNone AllowAll
  /\ enc SelAny (SelExact "/a/[b") (AllowList ["k"])
     = enc SelAny (SelExact "/a") (AllowList ["b/[k"])
  /\ enc SelAny SelAny (AllowList []) = enc SelAny SelAny AllowNone
  /\ enc SelAny SelAny (AllowList [""]) = enc SelAny SelAny AllowNone
  /\ enc SelAny SelAny (AllowList ["a,b"])
     = enc SelAny SelAny (AllowList ["a"; "b"]).
Proof. repeat split; reflexivity. Qed.

(** C2, as worded, fails: an exact path given with and without its
    leading slash makes two tuples with one id, and so do a path that
    ends in a bracketed segment and the same path with an allow-list. *)
Lemma encode_collision :
  (SelExact "api", SelExact "users", AllowAll)
  <> (SelExact "api", SelExact "/users", AllowAll)
  /\ encode "example.com" (SelExact "api") (SelExact "users") AllowAll
     = encode "example.com" (SelExact "api") (SelExact "/users") AllowAll
  /\ (SelExact "api", SelExact "/users/[id]", AllowAll)
     <> (SelExact "api", SelExact "/users", AllowList ["id"])
  /\ encode "example.com" (SelExact "api") (SelExact "/users/[id]") AllowAll
     = encode "example.com" (SelExact "api") (SelExact "/users")
         (AllowList ["id"]).
Proof.
  repeat split; try reflexivity; intro H; discriminate H.
Qed.

(** The three ids that the specification quotes. *)
Example encode_quoted_ids :
  encode "example.com" (SelExact "api") (SelExact "/users")
    (AllowList ["id"; "page"]) = "api.example.com/users/[id,page]"
  /\ encode "example.com" SelAny SelAny AllowAll = "*.example.com/*"
  /\ encode "example.com" SelNone (SelExact "/home") (AllowList [])
     = "!.example.com/home/[]".
Proof. repeat split; reflexivity. Qed.

(** * Further properties of the class *)

(** ** Creating and reading back *)

Lemma no_row_with_id (ruleId : string) (st : store) :
  (forall r, In r st -> rule_id r <> ruleId) ->
  existsb (has_id ruleId) st = false.
Proof.
  intro H. destruct (existsb (has_id ruleId) st) eqn:E; [|reflexivity].
  apply existsb_exists in E as (r & Hin & Hr).
  apply String.eqb_eq in Hr. now apply H in Hin.
Qed.

Lemma row_with_id (ruleId : string) (st : store) :
  existsb (has_id ruleId) st = true <->
  exists r, In r st /\ rule_id r = ruleId.
Proof.
  rewrite existsb_exists. split; intros (r & Hin & Hr); exists r;
    (split; [assumption|]); now apply String.eqb_eq.
Qed.

(** Round trip: on a table where the id is free, [createRule] appends one
    row that carries the arguments and the current time in both time
    stamps, returns it, and [getRule] on the id reads the same row
    back. *)
Theorem createRule_getRule_round_trip (code : string) (now : Z)
    (st : store) (dom : jsstr) (sub pth : option string)
    (q : option (list string)) (url : string) (expiresAt : Z) :
  truthy dom = true ->
  (forall r, In r st ->
             rule_id r
             <> generateRuleId dom (of_column sub) (of_column pth) q) ->
  exists row,
    createRule code now dom sub pth q url expiresAt st
    = (Ok (Some row), (st ++ [row])%list)
    /\ getRule (rule_id row) (st ++ [row])%list
       = (Ok (Some row), (st ++ [row])%list)
    /\ rule_id row = generateRuleId dom (of_column sub) (of_column pth) q
    /\ JStr (domain row) = dom
    /\ subdomain row = sub /\ path row = pth /\ query_params row = q
    /\ downstream_url row = url /\ expires_at row = expiresAt
    /\ created_at row = now /\ updated_at row = now.
Proof.
  intros Hd Hfree. apply no_row_with_id in Hfree.
  set (row := mkRule (generateRuleId dom (of_column sub) (of_column pth) q)
                (template dom) sub pth q url expiresAt now now).
  exists row.
  split; [exact (createRule_fresh code now st dom sub pth q url expiresAt
                   Hd Hfree)|].
  split.
  - unfold getRule. f_equal. f_equal. exact (find_has_id_app st row Hfree).
  - cbn. repeat split.
    destruct dom as [| |s]; try discriminate. reflexivity.
Qed.

Lemma createRule_getRule_round_trip_witness :
  exists row,
    createRule "SQLITE_CONSTRAINT" 2000 (JStr "example.com") (Some "static")
      (Some "/assets") None "http://cdn-server:8080" 9000 [users_rule]
    = (Ok (Some row), ([users_rule] ++ [row])%list)
    /\ getRule (rule_id row) ([users_rule] ++ [row])%list
       = (Ok (Some row), ([users_rule] ++ [row])%list)
    /\ rule_id row
       = generateRuleId (JStr "example.com") (of_column (Some "static"))
           (of_column (Some "/assets")) None
    /\ JStr (domain row) = JStr "example.com"
    /\ subdomain row = Some "static" /\ path row = Some "/assets"
    /\ query_params row = None
    /\ downstream_url row = "http://cdn-server:8080"
    /\ expires_at row = 9000%Z
    /\ created_at row = 2000%Z /\ updated_at row = 2000%Z.
Proof.
  apply (createRule_getRule_round_trip "SQLITE_CONSTRAINT" 2000 [users_rule]
           (JStr "example.com") (Some "static") (Some "/assets") None
           "http://cdn-server:8080" 9000).
  - reflexivity.
  - intros r [<- | []]. discriminate.
Defined.

(** ** Deleting *)

(** [deleteRule] answers whether a row had the id, removes every such row
    and no other, leaves the id unreadable, and a second call finds
    nothing left to delete. *)
Theorem deleteRule_removes_exactly (ruleId : string) (st : store) :
  exists deleted st',
    deleteRule ruleId st = (Ok deleted, st')
    /\ (deleted = true <-> exists r, In r st /\ rule_id r = ruleId)
    /\ (forall r, In r st' <-> In r st /\ rule_id r <> ruleId)
    /\ getRule ruleId st' = (Ok None, st')
    /\ deleteRule ruleId st' = (Ok false, st').
Proof.
  exists (Nat.ltb 0 (length (filter (has_id ruleId) st))),
         (filter (fun r => negb (has_id ruleId r)) st).
  assert (Hnone : Forall (fun r => has_id ruleId r = false)
                    (filter (fun r => negb (has_id ruleId r)) st)).
  { apply Forall_forall. intros r Hr. apply filter_In in Hr as [_ Hr].
    now apply negb_true_iff in Hr. }
  split; [reflexivity|]. split; [|split; [|split]].
  - rewrite <- row_with_id, Nat.ltb_lt. split.
    + intro H. destruct (filter (has_id ruleId) st) as [|x l] eqn:E;
        [simpl in H; lia|].
      assert (Hx : In x (filter (has_id ruleId) st)) by (rewrite E; now left).
      apply filter_In in Hx as [Hin Hx].
      apply existsb_exists. now exists x.
    + intro H. apply existsb_exists in H as (x & Hin & Hx).
      assert (Hf : In x (filter (has_id ruleId) st))
        by (apply filter_In; auto).
      destruct (filter (has_id ruleId) st); [destruct Hf | simpl; lia].
  - intro r. rewrite filter_In, negb_true_iff. unfold has_id.
    now rewrite String.eqb_neq.
  - unfold getRule. f_equal. f_equal.
    destruct (find _ _) as [r|] eqn:E; [|reflexivity].
    apply find_some in E as [Hin Hr].
    rewrite Forall_forall in Hnone. apply Hnone in Hin. congruence.
  - unfold deleteRule. rewrite (filter_none _ _ Hnone).
    rewrite filter_all; [reflexivity|].
    eapply Forall_impl; [|exact Hnone].
    simpl. intros r ->. reflexivity.
Qed.

(** ** Updating *)

Lemma update_no_match (f : rule -> rule) (ruleId : string) (st : store) :
  existsb (has_id ruleId) st = false ->
  map (fun r => if has_id ruleId r then f r else r) st = st
  /\ filter (has_id ruleId) st = [].
Proof.
  induction st as [|x st IH]; simpl; intro H; [auto|].
  apply orb_false_elim in H as [Hx H]. rewrite Hx.
  destruct (IH H) as [-> ->]. auto.
Qed.

Lemma find_after_update (f : rule -> rule) (ruleId : string) (st : store) :
  (forall r, rule_id (f r) = rule_id r) ->
  find (has_id ruleId) (map (fun r => if has_id ruleId r then f r else r) st)
  = option_map f (find (has_id ruleId) st).
Proof.
  intro Hf. induction st as [|x st IH]; simpl; [reflexivity|].
  destruct (has_id ruleId x) eqn:Hx.
  - unfold has_id in *. now rewrite Hf, Hx.
  - now rewrite Hx.
Qed.

(** A patch in which neither [downstream_url] nor [expires_at] is set is
    refused with 'No valid fields to update' before the table is looked
    at: the error is the same whether or not the id exists, and nothing
    is written. *)
Theorem updateRule_no_valid_fields (now : Z) (ruleId : string)
    (u : updates) (st : store) :
  upd_downstream_url u = None -> upd_expires_at u = None ->
  updateRule now ruleId u st
  = (Throw (Error "No valid fields to update"), st).
Proof.
  intros H1 H2. unfold updateRule. rewrite H1, H2. reflexivity.
Qed.

Lemma updateRule_no_valid_fields_witness :
  updateRule 2000 "api.example.com/users/[id,page]"
    (mkUpdates None None ["rule_id"; "domain"]) [users_rule]
  = (Throw (Error "No valid fields to update"), [users_rule]).
Proof.
  apply (updateRule_no_valid_fields 2000 "api.example.com/users/[id,page]"
           (mkUpdates None None ["rule_id"; "domain"]) [users_rule]);
    reflexivity.
Defined.

(** A patch with a valid field for an id that no row has is refused with
    'Rule not found', and the table is left as it was. *)
Theorem updateRule_not_found (now : Z) (ruleId : string) (u : updates)
    (st : store) :
  upd_downstream_url u <> None \/ upd_expires_at u <> None ->
  (forall r, In r st -> rule_id r <> ruleId) ->
  updateRule now ruleId u st = (Throw (Error "Rule not found"), st).
Proof.
  intros Hu Hfree. apply no_row_with_id in Hfree.
  pose proof (proj2 (update_no_match (fun r => r) ruleId st Hfree)) as Hfil.
  unfold updateRule.
  destruct (upd_downstream_url u), (upd_expires_at u);
    [| | |destruct Hu as [Hu | Hu]; contradiction];
    cbn [app length Nat.eqb]; unfold bind, run_update;
    rewrite (proj1 (update_no_match _ ruleId st Hfree)), Hfil;
    reflexivity.
Qed.

Lemma updateRule_not_found_witness :
  updateRule 2000 "missing.example.com/x" (mkUpdates None (Some 9000%Z) [])
    [users_rule]
  = (Throw (Error "Rule not found"), [users_rule]).
Proof.
  apply (updateRule_not_found 2000 "missing.example.com/x"
           (mkUpdates None (Some 9000%Z) []) [users_rule]).
  - right. discriminate.
  - intros r [<- | []]. discriminate.
Defined.

Lemma run_update_then_get (now : Z) (clauses : list set_clause)
    (ruleId : string) (st : store) (r : rule) :
  find (has_id ruleId) st = Some r ->
  (changes <- run_update now clauses ruleId ;;
   if Nat.eqb changes 0 then throw (Error "Rule not found")
   else getRule ruleId) st
  = (Ok (Some (fold_left (apply_clause now) clauses r)),
     map (fun x => if has_id ruleId x
                   then fold_left (apply_clause now) clauses x
                   else x) st).
Proof.
  intro Hfind. unfold bind, run_update.
  assert (Hsome : Nat.eqb (length (filter (has_id ruleId) st)) 0 = false).
  { apply find_some in Hfind as [Hin Hr].
    assert (Hf : In r (filter (has_id ruleId) st)) by (apply filter_In; auto).
    destruct (filter (has_id ruleId) st); [destruct Hf | reflexivity]. }
  rewrite Hsome. unfold getRule. rewrite find_after_update.
  - now rewrite Hfind.
  - intro x. now destruct (apply_clauses_identity now clauses x).
Qed.

(** A patch with a valid field for an id that [getRule] finds succeeds:
    the row returned is the found row with the given target and expiry
    in place of the old ones, the rest as before and [updated_at] set to
    the current time; that row is what [getRule] reads afterwards, and
    the table keeps its length. *)
Theorem updateRule_effect (now : Z) (ruleId : string) (u : updates)
    (st : store) (r : rule) :
  upd_downstream_url u <> None \/ upd_expires_at u <> None ->
  find (has_id ruleId) st = Some r ->
  exists st',
    updateRule now ruleId u st = (Ok (Some (updated_row now u r)), st')
    /\ getRule ruleId st' = (Ok (Some (updated_row now u r)), st')
    /\ length st' = length st.
Proof.
  intros Hu Hfind.
  exists (map (fun x => if has_id ruleId x then updated_row now u x else x)
            st).
  split; [|split].
  - unfold updateRule, updated_row.
    destruct (upd_downstream_url u), (upd_expires_at u);
      [| | |destruct Hu as [Hu | Hu]; contradiction];
      cbn [app length Nat.eqb];
      rewrite (run_update_then_get _ _ _ _ _ Hfind); reflexivity.
  - unfold getRule. rewrite find_after_update; [|reflexivity].
    now rewrite Hfind.
  - apply length_map.
Qed.

Lemma updateRule_effect_witness :
  exists st',
    updateRule 2000 "api.example.com/users/[id,page]"
      (mkUpdates (Some "http://new-backend:8080") None [])
      [users_rule; lapsed_rule]
    = (Ok (Some (updated_row 2000
                   (mkUpdates (Some "http://new-backend:8080") None [])
                   users_rule)), st')
    /\ getRule "api.example.com/users/[id,page]" st'
       = (Ok (Some (updated_row 2000
                      (mkUpdates (Some "http://new-backend:8080") None [])
                      users_rule)), st')
    /\ length st' = length [users_rule; lapsed_rule].
Proof.
  apply (updateRule_effect 2000 "api.example.com/users/[id,page]"
           (mkUpdates (Some "http://new-backend:8080") None [])
           [users_rule; lapsed_rule] users_rule).
  - left. discriminate.
  - reflexivity.
Defined.

(** ** What every writer keeps *)

(** Deleting rows cannot make two ids meet. *)
Lemma unique_ids_filter (keep : rule -> bool) (st : store) :
  NoDup (map rule_id st) -> NoDup (map rule_id (filter keep st)).
Proof.
  induction st as [|r st IH]; intro Hu; [exact Hu|].
  apply NoDup_cons_iff in Hu as [Hfresh Hu]. simpl.
  destruct (keep r); [|exact (IH Hu)].
  simpl. apply NoDup_cons; [|exact (IH Hu)].
  intro Hmeet. apply Hfresh.
  apply in_map_iff in Hmeet as (r' & E & Hin).
  apply in_map_iff. exists r'. apply filter_In in Hin. tauto.
Qed.

Lemma store_ok_filter (p : rule -> bool) (st : store) :
  store_ok st -> store_ok (filter p st).
Proof.
  intros (Hn & Hk & Hd). split; [now apply unique_ids_filter|].
  split; apply Forall_forall; intros r Hr; apply filter_In in Hr as [Hr _].
  - rewrite Forall_forall in Hk. now apply Hk.
  - rewrite Forall_forall in Hd. now apply Hd.
Qed.

Lemma store_ok_update (f : rule -> rule) (ruleId : string) (st : store) :
  (forall r, same_identity r (f r)) ->
  store_ok st ->
  store_ok (map (fun r => if has_id ruleId r then f r else r) st).
Proof.
  intros Hf (Hn & Hk & Hd).
  assert (Hid : forall r, same_identity r (if has_id ruleId r then f r else r)).
  { intro r. destruct (has_id ruleId r); [apply Hf | repeat split]. }
  split; [|split].
  - rewrite map_map.
    rewrite (map_ext _ rule_id); [assumption|].
    intro r. now destruct (Hid r).
  - apply Forall_forall. intros r' Hr'.
    apply in_map_iff in Hr' as (r & <- & Hr).
    rewrite Forall_forall in Hk. specialize (Hk r Hr).
    destruct (Hid r) as (H1 & H2 & H3 & H4 & H5 & _).
    unfold well_keyed in *. now rewrite H1, H2, H3, H4, H5.
  - apply Forall_forall. intros r' Hr'.
    apply in_map_iff in Hr' as (r & <- & Hr).
    rewrite Forall_forall in Hd. specialize (Hd r Hr).
    destruct (Hid r) as (_ & H2 & _). now rewrite H2.
Qed.

Lemma store_ok_create (code : string) (now : Z) (dom : jsstr)
    (sub pth : option string) (q : option (list string)) (url : string)
    (expiresAt : Z) (st : store) :
  store_ok st ->
  store_ok (state_after (createRule code now dom sub pth q url expiresAt) st).
Proof.
  intro Hok. unfold state_after, createRule.
  destruct (truthy dom) eqn:Hd; cbn [negb]; [|exact Hok].
  unfold try_catch, bind, insert_row. cbn [rule_id].
  destruct (existsb _ st) eqn:Hex.
  - destruct (code =? "SQLITE_CONSTRAINT"); exact Hok.
  - cbn. destruct Hok as (Hn & Hk & Hdm).
    destruct dom as [| |s]; try discriminate. cbn [template].
    split; [|split].
    + rewrite map_app. cbn [map rule_id].
      apply Permutation_NoDup with
        (l := generateRuleId (JStr s) (of_column sub) (of_column pth) q
              :: map rule_id st).
      * apply Permutation_cons_append.
      * constructor; [|assumption].
        intro Hin. apply in_map_iff in Hin as (r & Hr & Hin).
        assert (Ht : existsb
                       (has_id (generateRuleId (JStr s) (of_column sub)
                                  (of_column pth) q)) st = true)
          by (apply row_with_id; now exists r).
        congruence.
    + apply Forall_app. split; [assumption|].
      constructor; [reflexivity | constructor].
    + apply Forall_app. split; [assumption|].
      constructor; [|constructor]. cbn [domain].
      intros ->. discriminate.
Qed.

(** Whatever their arguments and outcome, [createRule], [updateRule],
    [deleteRule] and [pruneExpiredRules] keep the table well formed: no
    two rows share an id, every row's id is the encoding of that row's
    own domain, subdomain, path and query parameters, and no row has an
    empty domain. *)
Theorem writers_keep_store_ok (st : store) :
  store_ok st ->
  (forall code now dom sub pth q url expiresAt,
      store_ok
        (state_after (createRule code now dom sub pth q url expiresAt) st))
  /\ (forall now ruleId u, store_ok (state_after (updateRule now ruleId u) st))
  /\ (forall ruleId, store_ok (state_after (deleteRule ruleId) st))
  /\ (forall now, store_ok (state_after (pruneExpiredRules now) st)).
Proof.
  intro Hok. split; [|split; [|split]].
  - intros. now apply store_ok_create.
  - intros now ruleId u. unfold state_after, updateRule.
    destruct (Nat.eqb (length _) 0); [exact Hok|].
    unfold bind, run_update.
    destruct (Nat.eqb (length (filter (has_id ruleId) st)) 0); cbn [snd];
      (apply store_ok_update; [|exact Hok]);
      intro r; apply apply_clauses_identity.
  - intro ruleId. unfold state_after, deleteRule. cbn [snd].
    now apply store_ok_filter.
  - intro now. unfold state_after, pruneExpiredRules. cbn [snd].
    now apply store_ok_filter.
Qed.

Lemma writers_keep_store_ok_witness :
  (forall code now dom sub pth q url expiresAt,
      store_ok
        (state_after (createRule code now dom sub pth q url expiresAt)
           test_store))
  /\ (forall now ruleId u,
         store_ok (state_after (updateRule now ruleId u) test_store))
  /\ (forall ruleId, store_ok (state_after (deleteRule ruleId) test_store))
  /\ (forall now, store_ok (state_after (pruneExpiredRules now) test_store)).
Proof.
  apply (writers_keep_store_ok test_store).
  split; [|split].
  - simpl. repeat constructor; simpl; intuition discriminate.
  - repeat constructor.
  - repeat constructor; simpl; discriminate.
Defined.

(** ** Listing order *)

Section KeySort.
Context {A : Type} (key : A -> Z) (cmp : A -> A -> Z).
Hypothesis cmp_key : forall a b, cmp a b = (key b - key a)%Z.

Lemma sort_insert_sorted (x : A) (l : list A) :
  StronglySorted (fun a b => (key b <= key a)%Z) l ->
  StronglySorted (fun a b => (key b <= key a)%Z) (sort_insert cmp x l).
Proof.
  induction 1 as [|y l Hs IH Hy]; simpl.
  - repeat constructor.
  - rewrite cmp_key. destruct (key y - key x <=? 0)%Z eqn:Hc.
    + apply Z.leb_le in Hc. constructor.
      * now constructor.
      * constructor; [lia|].
        eapply Forall_impl; [|exact Hy]. simpl. intros; lia.
    + apply Z.leb_gt in Hc. constructor; [assumption|].
      eapply Permutation_Forall; [apply sort_insert_perm|].
      constructor; [lia | assumption].
Qed.

Lemma sort_by_sorted (l : list A) :
  StronglySorted (fun a b => (key b <= key a)%Z) (sort_by cmp l).
Proof.
  induction l as [|x l IH]; simpl; [constructor|].
  now apply sort_insert_sorted.
Qed.
End KeySort.

(** [getAllRules] lists every row of the table exactly once, newest
    first; [getActiveRules] lists exactly the rows whose expiry is after
    the current time, newest first as well. *)
Theorem listings_newest_first (now : Z) (st : store) :
  Permutation st (getAllRules st)
  /\ StronglySorted (fun a b => (created_at b <= created_at a)%Z)
       (getAllRules st)
  /\ Permutation (filter (active now) st) (getActiveRules now st)
  /\ StronglySorted (fun a b => (created_at b <= created_at a)%Z)
       (getActiveRules now st).
Proof.
  unfold getAllRules, getActiveRules. repeat split.
  - apply sort_by_perm.
  - now apply (sort_by_sorted created_at).
  - eapply perm_trans; apply sort_by_perm.
  - now apply (sort_by_sorted created_at).
Qed.

(** ** Pruning and matching *)

Lemma active_not_expired (now : Z) (r : rule) :
  active now r = negb (expired now r).
Proof. unfold active, expired. apply Z.ltb_antisym. Qed.

Lemma filter_filter_weaker {A : Type} (p q : A -> bool) (l : list A) :
  (forall x, p x = true -> q x = true) ->
  filter p (filter q l) = filter p l.
Proof.
  intro H. induction l as [|x l IH]; simpl; [reflexivity|].
  destruct (q x) eqn:Hq; simpl.
  - now rewrite IH.
  - destruct (p x) eqn:Hp; [|assumption].
    apply H in Hp. congruence.
Qed.

(** Pruning at a time not after the current time changes no answer:
    [findMatchingRule] and [getActiveRules] give the same result on the
    pruned table as on the unpruned one; and what [getAllRules] lists
    after pruning at the current time are the rows of [getActiveRules],
    each as often. *)
Theorem prune_changes_no_answer (t now : Z) (st : store) :
  (t <= now)%Z ->
  (forall dom sub pth keys,
      findMatchingRule now (state_after (pruneExpiredRules t) st)
        dom sub pth keys
      = findMatchingRule now st dom sub pth keys)
  /\ getActiveRules now (state_after (pruneExpiredRules t) st)
     = getActiveRules now st
  /\ Permutation (getAllRules (state_after (pruneExpiredRules now) st))
       (getActiveRules now st).
Proof.
  intro Ht. unfold state_after, pruneExpiredRules. cbn [snd].
  split; [|split].
  - intros. unfold findMatchingRule, select_candidates.
    rewrite filter_filter_weaker; [reflexivity|].
    intros r Hr. apply andb_true_iff in Hr as [Ha _].
    apply active_iff in Ha. unfold expired.
    apply negb_true_iff, Z.leb_gt. lia.
  - unfold getActiveRules. rewrite filter_filter_weaker; [reflexivity|].
    intros r Ha. apply active_iff in Ha. unfold expired.
    apply negb_true_iff, Z.leb_gt. lia.
  - unfold getAllRules, getActiveRules.
    rewrite (filter_ext (fun r => negb (expired now r)) (active now))
      by (intro r; now rewrite active_not_expired).
    eapply perm_trans; [apply Permutation_sym, sort_by_perm|].
    eapply perm_trans; apply sort_by_perm.
Qed.

Lemma prune_changes_no_answer_witness :
  (forall dom sub pth keys,
      findMatchingRule 1000
        (state_after (pruneExpiredRules 900) [users_rule; lapsed_rule])
        dom sub pth keys
      = findMatchingRule 1000 [users_rule; lapsed_rule] dom sub pth keys)
  /\ getActiveRules 1000
       (state_after (pruneExpiredRules 900) [users_rule; lapsed_rule])
     = getActiveRules 1000 [users_rule; lapsed_rule]
  /\ Permutation
       (getAllRules
          (state_after (pruneExpiredRules 1000) [users_rule; lapsed_rule]))
       (getActiveRules 1000 [users_rule; lapsed_rule]).
Proof.
  apply (prune_changes_no_answer 900 1000 [users_rule; lapsed_rule]). lia.
Defined.

(** ** Rows that cannot win *)

Lemma collect_matches_app (l1 l2 : list rule) (sub pth : jsstr)
    (keys : list string) :
  collect_matches (l1 ++ l2) sub pth keys
  = (collect_matches l1 sub pth keys ++ collect_matches l2 sub pth keys)%list.
Proof.
  induction l1 as [|x l1 IH]; simpl; [reflexivity|].
  destruct (score_rule x sub pth keys); simpl; now rewrite IH.
Qed.

Lemma matches_app (now : Z) (dom : string) (st1 st2 : store)
    (sub pth : jsstr) (keys : list string) :
  collect_matches (select_candidates now dom (st1 ++ st2)%list) sub pth keys
  = (collect_matches (select_candidates now dom st1) sub pth keys
     ++ collect_matches (select_candidates now dom st2) sub pth keys)%list.
Proof.
  unfold select_candidates. now rewrite filter_app, collect_matches_app.
Qed.

(** A row of another domain, a row whose expiry is not after the current
    time, and a row that one of the three tests excludes have no
    influence on the result: with or without such a row in the table,
    wherever it stands, [findMatchingRule] returns the same. *)
Theorem findMatchingRule_ignores_row (now : Z) (st1 st2 : store) (r : rule)
    (dom : string) (sub pth : jsstr) (keys : list string) :
  domain r <> dom \/ (expires_at r <= now)%Z
  \/ score_rule r sub pth keys = None ->
  findMatchingRule now (st1 ++ r :: st2)%list dom sub pth keys
  = findMatchingRule now (st1 ++ st2)%list dom sub pth keys.
Proof.
  intro H. unfold findMatchingRule.
  rewrite !matches_app.
  assert (E : collect_matches (select_candidates now dom (r :: st2))
                sub pth keys
              = collect_matches (select_candidates now dom st2) sub pth keys).
  { unfold select_candidates. simpl.
    destruct (active now r && (domain r =? dom)) eqn:Hc; [|reflexivity].
    apply andb_true_iff in Hc as [Ha Hd].
    apply active_iff in Ha. apply String.eqb_eq in Hd.
    destruct H as [H | [H | H]]; [contradiction | lia |].
    simpl. now rewrite H. }
  now rewrite E.
Qed.

Lemma findMatchingRule_ignores_row_witness :
  findMatchingRule 1000 ([users_rule] ++ lapsed_rule :: [root_rule])%list
    "example.com" (JStr "www") JNull []
  = findMatchingRule 1000 ([users_rule] ++ [root_rule])%list
      "example.com" (JStr "www") JNull [].
Proof.
  apply (findMatchingRule_ignores_row 1000 [users_rule] [root_rule]
           lapsed_rule "example.com" (JStr "www") JNull []).
  left. discriminate.
Defined.

(** ** The request's query keys count as a set *)

Lemma check_query_same_keys (r : rule) (keys keys' : list string) :
  (forall k, In k keys <-> In k keys') ->
  check_query r keys = check_query r keys'.
Proof.
  intro H. unfold check_query.
  destruct (query_params r) as [allowed|]; [|reflexivity].
  destruct (Nat.eqb (length allowed) 0).
  - destruct keys as [|k ks], keys' as [|k' ks']; try reflexivity.
    + exfalso. apply (proj2 (H k')). now left.
    + exfalso. apply (proj1 (H k)). now left.
  - destruct (forallb (includes allowed) keys) eqn:E1,
             (forallb (includes allowed) keys') eqn:E2; try reflexivity.
    + rewrite forallb_forall in E1.
      assert (E : forallb (includes allowed) keys' = true)
        by (apply forallb_forall; intros k Hk; apply E1, H, Hk).
      congruence.
    + rewrite forallb_forall in E2.
      assert (E : forallb (includes allowed) keys = true)
        by (apply forallb_forall; intros k Hk; apply E2, H, Hk).
      congruence.
Qed.

Lemma collect_matches_ext (l : list rule) (sub pth : jsstr)
    (keys keys' : list string) :
  (forall r, score_rule r sub pth keys = score_rule r sub pth keys') ->
  collect_matches l sub pth keys = collect_matches l sub pth keys'.
Proof.
  intro H. induction l as [|x l IH]; simpl; [reflexivity|].
  rewrite H, IH. reflexivity.
Qed.

(** Neither the order of the request's query keys nor a repeated key
    matters: two key lists with the same members get the same rule. *)
Theorem findMatchingRule_keys_as_set (now : Z) (st : store) (dom : string)
    (sub pth : jsstr) (keys keys' : list string) :
  (forall k, In k keys <-> In k keys') ->
  findMatchingRule now st dom sub pth keys
  = findMatchingRule now st dom sub pth keys'.
Proof.
  intro H. unfold findMatchingRule.
  rewrite (collect_matches_ext _ sub pth keys keys'); [reflexivity|].
  intro r. unfold score_rule.
  now rewrite (check_query_same_keys r keys keys' H).
Qed.

Lemma findMatchingRule_keys_as_set_witness :
  findMatchingRule 1000 test_store "example.com" (JStr "api")
    (JStr "/users") ["id"; "page"]
  = findMatchingRule 1000 test_store "example.com" (JStr "api")
      (JStr "/users") ["page"; "id"; "page"].
Proof.
  apply (findMatchingRule_keys_as_set 1000 test_store "example.com"
           (JStr "api") (JStr "/users") ["id"; "page"]
           ["page"; "id"; "page"]).
  intro k. simpl. tauto.
Defined.

(** ** Exact selectors *)

Lemma strict_eq_JStr (v : string) (x : jsstr) :
  strict_eq (JStr v) x = true -> x = JStr v.
Proof.
  destruct x as [| |s]; unfold strict_eq; try discriminate.
  intro H. apply String.eqb_eq in H. congruence.
Qed.

(** No prefix or pattern matching: a returned rule whose subdomain is an
    exact value was asked for with that very subdomain, and one whose
    path is an exact value with that very path. *)
Theorem findMatchingRule_exact_means_equal (now : Z) (st : store)
    (dom : string) (sub pth : jsstr) (keys : list string) (r : rule) :
  findMatchingRule now st dom sub pth keys = Some r ->
  (forall v, selector_of (subdomain r) = SelExact v -> sub = JStr v)
  /\ (forall p, selector_of (path r) = SelExact p -> pth = JStr p).
Proof.
  intro H. apply findMatchingRule_scored in H as [_ [s Hs]].
  rewrite score_rule_spec in Hs. unfold spec_total_bang, sum3 in Hs.
  destruct (spec_subdomain_score _ sub) as [s1|] eqn:E1; [|discriminate].
  destruct (spec_path_score_bang _ pth) as [s2|] eqn:E2; [|discriminate].
  split.
  - intros v Hv. rewrite Hv in E1. unfold spec_subdomain_score in E1.
    destruct (strict_eq (JStr v) sub) eqn:E; [|discriminate].
    now apply strict_eq_JStr.
  - intros p Hp. rewrite Hp in E2. unfold spec_path_score_bang in E2.
    destruct (strict_eq (JStr p) pth) eqn:E; [|discriminate].
    now apply strict_eq_JStr.
Qed.

Lemma findMatchingRule_exact_means_equal_witness :
  (forall v, selector_of (subdomain users_rule) = SelExact v ->
             JStr "api" = JStr v)
  /\ (forall p, selector_of (path users_rule) = SelExact p ->
                JStr "/users" = JStr p).
Proof.
  apply (findMatchingRule_exact_means_equal 1000 test_store "example.com"
           (JStr "api") (JStr "/users") ["id"] users_rule).
  reflexivity.
Defined.

(** ** The catch-all rule *)

Lemma findMatchingRule_is_max (now : Z) (st : store) (dom : string)
    (sub pth : jsstr) (keys : list string) (r : rule) :
  findMatchingRule now st dom sub pth keys = Some r ->
  exists total,
    score_rule r sub pth keys = Some total
    /\ forall r' total',
         candidate now dom st r' ->
         score_rule r' sub pth keys = Some total' -> (total' <= total)%Z.
Proof.
  intro H. apply findMatchingRule_Some in H as (s & l1 & l2 & Hl & H1 & H2).
  exists s. split.
  - apply (collect_matches_In (select_candidates now dom st)).
    rewrite Hl. apply in_elt.
  - intros r' t' Hc Ht.
    assert (Hin : In (r', t')
              (collect_matches (select_candidates now dom st) sub pth keys))
      by (apply collect_matches_In; split;
          [now apply select_candidates_In | assumption]).
    rewrite Hl in Hin. apply in_app_or in Hin as [Hin | [E | Hin]].
    + rewrite Forall_forall in H1. apply H1 in Hin. simpl in Hin. lia.
    + injection E as _ <-. lia.
    + rewrite Forall_forall in H2. now apply H2 in Hin.
Qed.

Lemma check_subdomain_low (r : rule) (sub : jsstr) (s : Z) :
  check_subdomain r sub = Some s ->
  (s = 1%Z /\ subdomain r = Some "*") \/ s = 10%Z.
Proof.
  unfold check_subdomain. destruct (subdomain r) as [c|].
  - column_tests c. destruct (String.eqb_spec c "*") as [->|_].
    + intro H. injection H as <-. auto.
    + destruct ((c =? "!") || negb (negb (c =? ""))).
      * destruct (truthy sub); [discriminate|].
        intro H. injection H as <-. auto.
      * destruct (strict_eq (JStr c) sub); [|discriminate].
        intro H. injection H as <-. auto.
  - simpl. destruct (truthy sub); [discriminate|].
    intro H. injection H as <-. auto.
Qed.

Lemma check_path_low (r : rule) (pth : jsstr) (s : Z) :
  check_path r pth = Some s ->
  (s = 1%Z /\ path r = Some "*") \/ s = 10%Z.
Proof.
  unfold check_path. destruct (path r) as [c|].
  - column_tests c. destruct (String.eqb_spec c "*") as [->|_].
    + intro H. injection H as <-. auto.
    + destruct ((c =? "!") || negb (negb (c =? ""))).
      * destruct (truthy pth && negb (is_str pth "/")
                  && negb (is_str pth "!")); [discriminate|].
        intro H. injection H as <-. auto.
      * destruct (strict_eq (JStr c) pth); [|discriminate].
        intro H. injection H as <-. auto.
  - simpl.
    destruct (truthy pth && negb (is_str pth "/") && negb (is_str pth "!"));
      [discriminate|].
    intro H. injection H as <-. auto.
Qed.

Lemma check_query_low (r : rule) (keys : list string) (s : Z) :
  check_query r keys = Some s ->
  (s = 5%Z /\ query_params r = None) \/ s = 10%Z.
Proof.
  unfold check_query. destruct (query_params r) as [allowed|].
  - destruct (Nat.eqb (length allowed) 0).
    + destruct (Nat.eqb (length keys) 0); [|discriminate].
      intro H. injection H as <-. auto.
    + destruct (forallb (includes allowed) keys); [|discriminate].
      intro H. injection H as <-. auto.
  - intro H. injection H as <-. auto.
Qed.

(** A total lies between 7 and 30, and it is 7 only for the catch-all
    row: wildcard subdomain, wildcard path, no query restriction. *)
Lemma score_rule_range (r : rule) (sub pth : jsstr) (keys : list string)
    (s : Z) :
  score_rule r sub pth keys = Some s ->
  (7 <= s <= 30)%Z
  /\ (s = 7%Z ->
      subdomain r = Some "*" /\ path r = Some "*" /\ query_params r = None).
Proof.
  unfold score_rule.
  destruct (check_subdomain r sub) as [s1|] eqn:E1; [|discriminate].
  destruct (check_path r pth) as [s2|] eqn:E2; [|discriminate].
  destruct (check_query r keys) as [s3|] eqn:E3; [|discriminate].
  intro H. injection H as <-.
  apply check_subdomain_low in E1. apply check_path_low in E2.
  apply check_query_low in E3.
  destruct E1 as [[-> ?] | ->], E2 as [[-> ?] | ->], E3 as [[-> ?] | ->];
    (split; [lia|]); intro; try lia; auto.
Qed.

Lemma catch_all_scores_7 (r : rule) (sub pth : jsstr) (keys : list string) :
  subdomain r = Some "*" -> path r = Some "*" -> query_params r = None ->
  score_rule r sub pth keys = Some 7%Z.
Proof.
  intros H1 H2 H3.
  unfold score_rule, check_subdomain, check_path, check_query.
  now rewrite H1, H2, H3.
Qed.

(** While a catch-all rule of a domain is active, no request for that
    domain goes unanswered, whatever its subdomain, path and query
    keys. *)
Theorem catch_all_always_answers (now : Z) (st : store) (dom : string)
    (sub pth : jsstr) (keys : list string) (r : rule) :
  In r st -> (now < expires_at r)%Z -> domain r = dom ->
  subdomain r = Some "*" -> path r = Some "*" -> query_params r = None ->
  findMatchingRule now st dom sub pth keys <> None.
Proof.
  intros Hin Hexp Hd H1 H2 H3 Hnone.
  assert (Hc : candidate now dom st r).
  { repeat split; try assumption. now apply active_iff. }
  pose proof (findMatchingRule_None _ _ _ _ _ _ Hnone r Hc) as Hs.
  rewrite (catch_all_scores_7 r sub pth keys H1 H2 H3) in Hs. discriminate.
Qed.

Lemma catch_all_always_answers_witness :
  findMatchingRule 1000 test_store "example.com" (JStr "shop")
    (JStr "/cart") ["coupon"] <> None.
Proof.
  apply (catch_all_always_answers 1000 test_store "example.com"
           (JStr "shop") (JStr "/cart") ["coupon"]
           (mkRule "*.example.com/*" "example.com" (Some "*") (Some "*") None
              "http://wildcard:9000" 8200 1000 1000));
    try reflexivity.
  simpl. right. left. reflexivity.
Defined.

(** The catch-all rule is the last resort: when it is what
    [findMatchingRule] returns, every candidate that passed the three
    tests is a catch-all row itself. *)
Theorem catch_all_is_last_resort (now : Z) (st : store) (dom : string)
    (sub pth : jsstr) (keys : list string) (r r' : rule) :
  findMatchingRule now st dom sub pth keys = Some r ->
  subdomain r = Some "*" -> path r = Some "*" -> query_params r = None ->
  candidate now dom st r' ->
  score_rule r' sub pth keys <> None ->
  subdomain r' = Some "*" /\ path r' = Some "*" /\ query_params r' = None.
Proof.
  intros H H1 H2 H3 Hc Hs.
  apply findMatchingRule_is_max in H as (total & Ht & Hmax).
  rewrite (catch_all_scores_7 r sub pth keys H1 H2 H3) in Ht.
  injection Ht as <-.
  destruct (score_rule r' sub pth keys) as [s'|] eqn:E; [|contradiction].
  pose proof (Hmax r' s' Hc E) as Hle.
  destruct (score_rule_range _ _ _ _ _ E) as [Hrange H7].
  apply H7. lia.
Qed.

Lemma catch_all_is_last_resort_witness :
  subdomain (mkRule "*.example.com/*" "example.com" (Some "*") (Some "*")
               None "http://wildcard:9000" 8200 1000 1000) = Some "*"
  /\ path (mkRule "*.example.com/*" "example.com" (Some "*") (Some "*")
             None "http://wildcard:9000" 8200 1000 1000) = Some "*"
  /\ query_params (mkRule "*.example.com/*" "example.com" (Some "*")
                     (Some "*") None "http://wildcard:9000" 8200 1000 1000)
     = None.
Proof.
  apply (catch_all_is_last_resort 1000 test_store "example.com"
           (JStr "test") (JStr "/anything") []
           (mkRule "*.example.com/*" "example.com" (Some "*") (Some "*") None
              "http://wildcard:9000" 8200 1000 1000)
           (mkRule "*.example.com/*" "example.com" (Some "*") (Some "*") None
              "http://wildcard:9000" 8200 1000 1000));
    try reflexivity.
  - repeat split. simpl. right. left. reflexivity.
  - discriminate.
Defined.

(** ** A new row against the current winner *)

Lemma first_max_unique (l1 : list (rule * Z)) :
  forall k1 l2 k2 m m',
    (l1 ++ m :: l2 = k1 ++ m' :: k2)%list ->
    Forall (fun x => (snd x < snd m)%Z) l1 ->
    Forall (fun x => (snd x <= snd m)%Z) l2 ->
    Forall (fun x => (snd x < snd m')%Z) k1 ->
    Forall (fun x => (snd x <= snd m')%Z) k2 ->
    m = m'.
Proof.
  induction l1 as [|y l1 IH]; intros [|z k1] l2 k2 m m' E A1 A2 B1 B2;
    simpl in E.
  - now injection E.
  - exfalso. injection E as -> E.
    inversion B1 as [|? ? Hz _]; subst.
    rewrite Forall_forall in A2.
    assert (Hm : In m' (k1 ++ m' :: k2)) by apply in_elt.
    apply A2 in Hm. lia.
  - exfalso. injection E as -> E.
    inversion A1 as [|? ? Hy _]; subst.
    rewrite Forall_forall in B2.
    assert (Hm : In m (l1 ++ m :: l2)) by apply in_elt.
    apply B2 in Hm. lia.
  - injection E as -> E.
    inversion A1; inversion B1; subst. eapply IH; eassumption.
Qed.

Lemma first_max_sorted_head (l1 l2 : list (rule * Z)) (m : rule * Z) :
  Forall (fun x => (snd x < snd m)%Z) l1 ->
  Forall (fun x => (snd x <= snd m)%Z) l2 ->
  exists rest, sort_by by_score_desc (l1 ++ m :: l2) = m :: rest.
Proof.
  intros A1 A2.
  destruct (sort_by by_score_desc (l1 ++ m :: l2)) as [|m0 rest] eqn:Hs.
  - apply sort_by_nil in Hs. destruct l1; discriminate.
  - destruct (sort_head_first_max _ _ _ Hs) as (k1 & k2 & E & B1 & B2).
    rewrite (first_max_unique _ _ _ _ _ _ E A1 A2 B1 B2). now exists rest.
Qed.

(** A row added at the end of the table, where [createRule] puts it,
    takes a request over from the rule that won it so far only if it is
    active, of the request's domain, passes the three tests and scores
    strictly more; in every other case the winner stays. *)
Theorem new_row_wins_only_if_better (now : Z) (st : store) (dom : string)
    (sub pth : jsstr) (keys : list string) (r x : rule) :
  findMatchingRule now st dom sub pth keys = Some r ->
  exists total,
    score_rule r sub pth keys = Some total
    /\ findMatchingRule now (st ++ [x])%list dom sub pth keys
       = if active now x && (domain x =? dom)
            && match score_rule x sub pth keys with
               | Some sx => (total <? sx)%Z
               | None => false
               end
         then Some x else Some r.
Proof.
  intro H. apply findMatchingRule_Some in H as (s & l1 & l2 & Hl & H1 & H2).
  exists s. split.
  - apply (collect_matches_In (select_candidates now dom st)).
    rewrite Hl. apply in_elt.
  - unfold findMatchingRule, formatRule. rewrite matches_app, Hl.
    unfold select_candidates at 1. simpl.
    destruct (active now x && (domain x =? dom)); simpl.
    + destruct (score_rule x sub pth keys) as [sx|].
      * destruct (s <? sx)%Z eqn:Hc.
        -- apply Z.ltb_lt in Hc.
           destruct (first_max_sorted_head (l1 ++ (r, s) :: l2) [] (x, sx))
             as [rest ->]; [|constructor|reflexivity].
           apply Forall_app. split.
           ++ eapply Forall_impl; [|exact H1]. simpl. intros; lia.
           ++ constructor; [simpl; lia|].
              eapply Forall_impl; [|exact H2]. simpl. intros; lia.
        -- apply Z.ltb_ge in Hc. rewrite <- app_assoc. simpl.
           destruct (first_max_sorted_head l1 (l2 ++ [(x, sx)]) (r, s))
             as [rest ->]; [assumption| |reflexivity].
           apply Forall_app. split; [assumption|].
           constructor; [simpl; lia | constructor].
      * rewrite app_nil_r.
        destruct (first_max_sorted_head l1 l2 (r, s)) as [rest ->];
          [assumption | assumption | reflexivity].
    + rewrite app_nil_r.
      destruct (first_max_sorted_head l1 l2 (r, s)) as [rest ->];
        [assumption | assumption | reflexivity].
Qed.

Lemma new_row_wins_only_if_better_witness :
  exists total,
    score_rule tie_older JNull (JStr "/") [] = Some total
    /\ findMatchingRule 1000 ([tie_older] ++ [tie_newer])%list "example.com"
         JNull (JStr "/") []
       = if active 1000 tie_newer && (domain tie_newer =? "example.com")
            && match score_rule tie_newer JNull (JStr "/") [] with
               | Some sx => (total <? sx)%Z
               | None => false
               end
         then Some tie_newer else Some tie_older.
Proof.
  apply (new_row_wins_only_if_better 1000 [tie_older] "example.com" JNull
           (JStr "/") [] tie_older tie_newer).
  reflexivity.
Defined.

(** ** The leading slash of a path *)

(** A path written without its leading slash encodes to the same id as
    the path written with it, so the two spellings cannot both be
    stored. *)
Theorem generateRuleId_adds_leading_slash (dom sub : jsstr) (p : string)
    (q : option (list string)) :
  p <> "" -> p <> "*" -> startsWith_slash p = false ->
  generateRuleId dom sub (JStr p) q
  = generateRuleId dom sub (JStr ("/" ++ p)) q.
Proof.
  intros H1 H2 H3. unfold generateRuleId.
  change (null_undef_or_empty (JStr p)) with (p =? "").
  change (is_str (JStr p) "*") with (p =? "*").
  change (template (JStr p)) with p.
  apply String.eqb_neq in H1. apply String.eqb_neq in H2.
  rewrite H1, H2, H3. reflexivity.
Qed.

Lemma generateRuleId_adds_leading_slash_witness :
  generateRuleId (JStr "example.com") (JStr "api") (JStr "users") None
  = generateRuleId (JStr "example.com") (JStr "api") (JStr ("/" ++ "users"))
      None.
Proof.
  apply (generateRuleId_adds_leading_slash (JStr "example.com") (JStr "api")
           "users" None).
  - discriminate.
  - discriminate.
  - reflexivity.
Defined.

(** * The resolver *)

(** ** Splitting the host *)

Lemma split_dot_not_nil (s : string) : split_dot s <> [].
Proof.
  induction s as [|c s IH]; simpl; [discriminate|].
  destruct (Ascii.eqb c "."); [discriminate|].
  destruct (split_dot s); discriminate.
Qed.

Lemma concat_dot_cons (h : string) (l : list string) :
  l <> [] -> String.concat "." (h :: l) = h ++ "." ++ String.concat "." l.
Proof. destruct l; [contradiction | reflexivity]. Qed.

Lemma concat_split_dot (s : string) : String.concat "." (split_dot s) = s.
Proof.
  induction s as [|c s IH]; [reflexivity|]. simpl.
  destruct (Ascii.eqb_spec c ".") as [->|_].
  - rewrite concat_dot_cons by apply split_dot_not_nil. now rewrite IH.
  - destruct (split_dot s) as [|h [|h' t]] eqn:E.
    + now apply split_dot_not_nil in E.
    + simpl in IH |- *. now rewrite IH.
    + simpl in IH |- *. f_equal. exact IH.
Qed.

Lemma concat_dot_app (l1 l2 : list string) :
  l1 <> [] -> l2 <> [] ->
  String.concat "." (l1 ++ l2)
  = String.concat "." l1 ++ "." ++ String.concat "." l2.
Proof.
  intros H1 H2. induction l1 as [|x l1 IH]; [contradiction|].
  destruct l1 as [|y l1].
  - simpl app. now rewrite concat_dot_cons.
  - change ((x :: y :: l1) ++ l2)%list with (x :: ((y :: l1) ++ l2))%list.
    rewrite concat_dot_cons by discriminate.
    rewrite IH by discriminate.
    rewrite (concat_dot_cons x (y :: l1)) by discriminate.
    now rewrite !append_assoc.
Qed.

Lemma split_dot_labels (s : string) :
  Forall (fun h => occurs "." h = false) (split_dot s).
Proof.
  induction s as [|c s IH]; simpl; [repeat constructor|].
  destruct (Ascii.eqb c ".") eqn:Hc.
  - constructor; [reflexivity | assumption].
  - destruct (split_dot s) as [|h t]; [repeat constructor; simpl; now rewrite Hc|].
    inversion IH as [|? ? Hh Ht]; subst.
    constructor; [|assumption]. simpl. now rewrite Hc, Hh.
Qed.

Lemma split_dot_single (s : string) :
  occurs "." s = false <-> length (split_dot s) = 1%nat.
Proof.
  induction s as [|c s IH]; simpl; [tauto|].
  destruct (Ascii.eqb c ".") eqn:Hc; simpl.
  - split; [discriminate|].
    intro H. injection H as H.
    pose proof (split_dot_not_nil s) as Hn.
    destruct (split_dot s); [contradiction | discriminate].
  - rewrite IH. destruct (split_dot s) as [|h t] eqn:E.
    + now apply split_dot_not_nil in E.
    + reflexivity.
Qed.

Lemma skipn_last_two {A : Type} (l : list A) :
  (2 <= length l)%nat -> exists a b, skipn (length l - 2) l = [a; b].
Proof.
  intro H.
  assert (Hlen : length (skipn (length l - 2) l) = 2%nat)
    by (rewrite length_skipn; lia).
  destruct (skipn (length l - 2) l) as [|a [|b [|c t]]]; try discriminate.
  now exists a, b.
Qed.

(** The host parser loses nothing: subdomain, dot and domain put together
    give the host again, or the domain alone is the host when no
    subdomain is found.  A host without a dot is its own domain; any
    other host has a domain of exactly two labels, the last two. *)
Theorem parseHost_splits_host (host : string) :
  (match snd (parseHost host) with
   | JStr s => s ++ "." ++ fst (parseHost host) = host
   | _ => fst (parseHost host) = host
   end)
  /\ (occurs "." host = false -> parseHost host = (host, JNull))
  /\ (occurs "." host = true ->
      exists a b,
        fst (parseHost host) = a ++ "." ++ b
        /\ occurs "." a = false /\ occurs "." b = false).
Proof.
  unfold parseHost.
  pose proof (concat_split_dot host) as Hjoin.
  pose proof (split_dot_labels host) as Hlab.
  pose proof (split_dot_single host) as Hone.
  pose proof (split_dot_not_nil host) as Hnil.
  set (l := split_dot host) in *.
  split; [|split].
  - destruct (Nat.leb 2 (length l)) eqn:H2; [|reflexivity].
    apply Nat.leb_le in H2. cbn [fst snd].
    destruct (Nat.ltb 2 (length l)) eqn:H3.
    + apply Nat.ltb_lt in H3.
      rewrite <- concat_dot_app.
      * now rewrite firstn_skipn.
      * intro E. apply (f_equal (@length string)) in E.
        rewrite length_firstn in E. simpl in E. lia.
      * intro E. apply (f_equal (@length string)) in E.
        rewrite length_skipn in E. simpl in E. lia.
    + apply Nat.ltb_ge in H3.
      replace (length l - 2)%nat with 0%nat by lia. exact Hjoin.
  - intro H. apply Hone in H. rewrite H. reflexivity.
  - intro H.
    assert (H2 : (2 <= length l)%nat).
    { destruct l as [|x [|y t]]; [contradiction | | simpl; lia].
      assert (E' : occurs "." host = false) by (apply Hone; reflexivity).
      congruence. }
    rewrite (proj2 (Nat.leb_le _ _) H2). cbn [fst].
    destruct (skipn_last_two l H2) as (a & b & E).
    exists a, b. rewrite E. split; [reflexivity|].
    rewrite Forall_forall in Hlab.
    assert (Ha : In a l /\ In b l).
    { assert (Hsub : forall x, In x (skipn (length l - 2) l) -> In x l).
      { intros x Hx. rewrite <- (firstn_skipn (length l - 2) l).
        apply in_or_app. now right. }
      rewrite E in Hsub. split; apply Hsub; simpl; auto. }
    destruct Ha as [Ha Hb]. split; [now apply Hlab | now apply Hlab].
Qed.

Example parseHost_examples :
  parseHost "api.example.com" = ("example.com", JStr "api")
  /\ parseHost "example.com" = ("example.com", JNull)
  /\ parseHost "a.b.example.com" = ("example.com", JStr "a.b")
  /\ parseHost "localhost" = ("localhost", JNull).
Proof. repeat split; reflexivity. Qed.

(** ** Absent request values *)

Lemma strict_eq_falsy (c : string) (v : jsstr) :
  c <> "" -> truthy v = false -> strict_eq (JStr c) v = false.
Proof.
  intros Hc Hv. destruct v as [| |s]; try reflexivity.
  unfold truthy in Hv. apply negb_false_iff, String.eqb_eq in Hv. subst s.
  unfold strict_eq. now apply String.eqb_neq.
Qed.

Lemma is_str_falsy (v : jsstr) (lit : string) :
  lit <> "" -> truthy v = false -> is_str v lit = false.
Proof.
  intros Hl Hv. destruct v as [| |s]; try reflexivity.
  unfold truthy in Hv. apply negb_false_iff, String.eqb_eq in Hv. subst s.
  unfold is_str. apply String.eqb_neq. congruence.
Qed.

Lemma check_subdomain_falsy (r : rule) (v v' : jsstr) :
  truthy v = false -> truthy v' = false ->
  check_subdomain r v = check_subdomain r v'.
Proof.
  intros Hv Hv'. unfold check_subdomain. rewrite Hv, Hv'.
  destruct (subdomain r) as [c|]; [|reflexivity].
  column_tests c. destruct (c =? "*"); [reflexivity|].
  destruct (c =? "!"); [reflexivity|].
  destruct (String.eqb_spec c "") as [->|Hc]; [reflexivity|].
  cbn [orb negb].
  now rewrite (strict_eq_falsy c v Hc Hv), (strict_eq_falsy c v' Hc Hv').
Qed.

Lemma check_path_falsy (r : rule) (v v' : jsstr) :
  truthy v = false -> truthy v' = false ->
  check_path r v = check_path r v'.
Proof.
  intros Hv Hv'. unfold check_path. rewrite Hv, Hv'.
  destruct (path r) as [c|]; [|reflexivity].
  column_tests c. destruct (c =? "*"); [reflexivity|].
  destruct (c =? "!"); [reflexivity|].
  destruct (String.eqb_spec c "") as [->|Hc]; [reflexivity|].
  cbn [orb negb andb].
  now rewrite (strict_eq_falsy c v Hc Hv), (strict_eq_falsy c v' Hc Hv').
Qed.

Lemma collect_matches_ext_request (l : list rule) (sub pth sub' pth' : jsstr)
    (keys : list string) :
  (forall r, score_rule r sub pth keys = score_rule r sub' pth' keys) ->
  collect_matches l sub pth keys = collect_matches l sub' pth' keys.
Proof.
  intro H. induction l as [|x l IH]; simpl; [reflexivity|].
  rewrite H, IH. reflexivity.
Qed.

(** On the request side [null], [undefined] and the empty string are one
    and the same, for the subdomain as for the path: exchanging one
    absent value for another changes no result. *)
Theorem findMatchingRule_absent_values_alike (now : Z) (st : store)
    (dom : string) (sub sub' pth pth' : jsstr) (keys : list string) :
  truthy sub = false -> truthy sub' = false ->
  truthy pth = false -> truthy pth' = false ->
  findMatchingRule now st dom sub pth keys
  = findMatchingRule now st dom sub' pth' keys.
Proof.
  intros H1 H2 H3 H4. unfold findMatchingRule.
  rewrite (collect_matches_ext_request _ sub pth sub' pth'); [reflexivity|].
  intro r. unfold score_rule.
  now rewrite (check_subdomain_falsy r sub sub' H1 H2),
              (check_path_falsy r pth pth' H3 H4).
Qed.

Lemma findMatchingRule_absent_values_alike_witness :
  findMatchingRule 1000 test_store "myapp.com" JNull (JStr "") []
  = findMatchingRule 1000 test_store "myapp.com" (JStr "") JUndefined [].
Proof.
  apply (findMatchingRule_absent_values_alike 1000 test_store "myapp.com"
           JNull (JStr "") (JStr "") JUndefined []); reflexivity.
Defined.

(** ** What the resolver hands out *)

(** A 200 answer of the resolver carries the target, id and expiry of a
    row of the table that has not expired and whose domain is the domain
    part of the requested host; a missing or empty host is the only
    cause of a 400. *)
Theorem resolve_handler_answers (now : Z) (st : store) (host reqPath : jsstr)
    (keys : list string) :
  (resolve_handler now st host reqPath keys = Resolver_400
   <-> truthy host = false)
  /\ forall url id expiresAt,
       resolve_handler now st host reqPath keys
       = Resolver_200 url id expiresAt ->
       exists r,
         In r st
         /\ downstream_url r = url /\ rule_id r = id
         /\ expires_at r = expiresAt
         /\ (now < expiresAt)%Z
         /\ domain r = fst (parseHost (template host)).
Proof.
  unfold resolve_handler.
  destruct (truthy host) eqn:Hh; cbn [negb].
  - destruct (parseHost (template host)) as [dom sub] eqn:Hp.
    destruct (findMatchingRule now st dom sub _ keys) as [r|] eqn:Hf.
    + destruct (header_value_ok (downstream_url r)
                && header_value_ok (rule_id r)).
      * split; [split; discriminate|].
        intros url id e H. injection H as <- <- <-.
        apply findMatchingRule_scored in Hf as [(Hin & Ha & Hd) _].
        exists r. apply active_iff in Ha. repeat split; assumption.
      * split; [split; discriminate|]. intros; discriminate.
    + split; [split; discriminate|]. intros; discriminate.
  - split; [tauto|]. intros; discriminate.
Qed.

(** * The management API *)

Lemma or_null_not_empty (v : jsstr) : or_null v <> Some "".
Proof.
  unfold or_null, or_default. destruct v as [| |s]; try discriminate.
  unfold truthy. destruct (String.eqb_spec s "") as [->|Hs]; cbn [negb].
  - discriminate.
  - congruence.
Qed.

Lemma createRule_taken (code : string) (now : Z) (st : store) (dom : jsstr)
    (sub pth : option string) (q : option (list string)) (url : string)
    (expiresAt : Z) :
  truthy dom = true ->
  existsb (has_id (generateRuleId dom (of_column sub) (of_column pth) q)) st
  = true ->
  exists e, createRule code now dom sub pth q url expiresAt st = (Throw e, st).
Proof.
  intros Hd Hex. unfold createRule. rewrite Hd. cbn [negb].
  unfold try_catch, bind, insert_row. cbn [rule_id]. rewrite Hex.
  destruct (code =? "SQLITE_CONSTRAINT"); eexists; reflexivity.
Qed.

(** [POST /api/rules] answers 201 exactly when the domain is not empty
    and the id that the body encodes to is free; the table then grows by
    the one row that the reply carries, and that row never has an empty
    string as subdomain or path.  In every other case the answer is 400
    and the table is untouched. *)
Theorem api_create_outcomes (code : string) (now : Z) (b : create_body)
    (st : store) :
  let id := generateRuleId (JStr (body_domain b))
              (of_column (or_null (body_subdomain b)))
              (of_column (or_null (body_path b))) (body_query_params b) in
  if negb (body_domain b =? "") && negb (existsb (has_id id) st)
  then exists row,
         api_create code now b st
         = (mkReply 201 (Some row) None, (st ++ [row])%list)
         /\ rule_id row = id
         /\ subdomain row <> Some "" /\ path row <> Some ""
  else exists e, api_create code now b st = (mkReply 400 None (Some e), st).
Proof.
  intro id. unfold api_create.
  destruct (body_domain b =? "") eqn:Hd; cbn [negb andb].
  - exists (Error "Domain is mandatory").
    unfold createRule, truthy. now rewrite Hd.
  - assert (Ht : truthy (JStr (body_domain b)) = true)
      by (unfold truthy; now rewrite Hd).
    destruct (existsb (has_id id) st) eqn:Hex; cbn [negb].
    + destruct (createRule_taken code now st _ _ _ _
                  (body_downstream_url b) (body_expires_at b) Ht Hex)
        as [e ->].
      now exists e.
    + rewrite (createRule_fresh code now st _ _ _ _
                 (body_downstream_url b) (body_expires_at b) Ht Hex).
      eexists. split; [reflexivity|]. cbn [rule_id subdomain path].
      split; [reflexivity|]. split; apply or_null_not_empty.
Qed.

Lemma find_none_existsb (ruleId : string) (st : store) :
  find (has_id ruleId) st = None <-> existsb (has_id ruleId) st = false.
Proof.
  induction st as [|x st IH]; simpl; [tauto|].
  destruct (has_id ruleId x); simpl; [split; discriminate | exact IH].
Qed.

Lemma updateRule_outcome (now : Z) (ruleId : string) (u : updates)
    (st : store) :
  updateRule now ruleId u st
  = match upd_downstream_url u, upd_expires_at u with
    | None, None => (Throw (Error "No valid fields to update"), st)
    | _, _ =>
        match find (has_id ruleId) st with
        | None => (Throw (Error "Rule not found"), st)
        | Some r =>
            (Ok (Some (updated_row now u r)),
             map (fun x => if has_id ruleId x then updated_row now u x
                           else x) st)
        end
    end.
Proof.
  unfold updateRule, updated_row.
  destruct (find (has_id ruleId) st) as [r|] eqn:Hfind.
  - destruct (upd_downstream_url u), (upd_expires_at u);
      cbn [app length Nat.eqb]; try reflexivity;
      rewrite (run_update_then_get _ _ _ _ _ Hfind); reflexivity.
  - apply find_none_existsb in Hfind.
    pose proof (proj2 (update_no_match (fun r => r) ruleId st Hfind)) as Hfil.
    destruct (upd_downstream_url u), (upd_expires_at u);
      cbn [app length Nat.eqb]; try reflexivity;
      unfold bind, run_update;
      rewrite (proj1 (update_no_match _ ruleId st Hfind)), Hfil;
      reflexivity.
Qed.

(** ** The decoder never runs out of fuel *)

Lemma decode_from_step (f : nat) (c : ascii) (s' : string) :
  decode_from (S f) (String c s')
  = if Ascii.eqb c "%" then
      match parse_escape (String c s') with
      | None => None
      | Some (b, rest) =>
          if (b <? 128)%N
          then option_map (String (ascii_of_N b)) (decode_from f rest)
          else
            if Nat.eqb (leading_ones b) 1 || Nat.ltb 4 (leading_ones b)
            then None
            else
              match take_escapes (leading_ones b - 1) rest with
              | None => None
              | Some (bs, rest') =>
                  if valid_utf8 (b :: bs)
                  then option_map
                         (String.append (string_of_octets (b :: bs)))
                         (decode_from f rest')
                  else None
              end
      end
    else option_map (String c) (decode_from f s').
Proof. reflexivity. Qed.

Lemma parse_escape_shorter (s : string) (b : N) (rest : string) :
  parse_escape s = Some (b, rest) ->
  (String.length rest < String.length s)%nat.
Proof.
  unfold parse_escape.
  destruct s as [|c [|h1 [|h2 r]]]; try discriminate.
  destruct (Ascii.eqb c "%"); [|discriminate].
  destruct (hex_digit h1), (hex_digit h2); try discriminate.
  intro H. injection H as _ <-. simpl. lia.
Qed.

Lemma take_escapes_shorter (n : nat) :
  forall s bs rest,
    take_escapes n s = Some (bs, rest) ->
    (String.length rest <= String.length s)%nat.
Proof.
  induction n as [|n IH]; intros s bs rest H; simpl in H.
  - injection H as _ <-. lia.
  - destruct (parse_escape s) as [[b r]|] eqn:E; [|discriminate].
    destruct (take_escapes n r) as [[bs' r']|] eqn:E'; [|discriminate].
    injection H as _ <-.
    apply parse_escape_shorter in E. apply IH in E'. lia.
Qed.

(** Any fuel from the length of the string on gives the result of
    [decodeURIComponent]: a [None] is a refusal of the input, never a
    loop cut short. *)
Lemma decode_from_enough_fuel (f1 : nat) :
  forall f2 s,
    (String.length s <= f1)%nat -> (String.length s <= f2)%nat ->
    decode_from f1 s = decode_from f2 s.
Proof.
  induction f1 as [|f1 IH]; intros f2 s H1 H2.
  - destruct s; [now destruct f2 | simpl in H1; lia].
  - destruct s as [|c s']; [now destruct f2|].
    destruct f2 as [|f2]; [simpl in H2; lia|].
    simpl in H1, H2. rewrite !decode_from_step.
    destruct (Ascii.eqb c "%").
    + destruct (parse_escape (String c s')) as [[b rest]|] eqn:E;
        [|reflexivity].
      apply parse_escape_shorter in E. simpl in E.
      destruct (b <? 128)%N.
      * rewrite (IH f2 rest); [reflexivity | lia | lia].
      * destruct (Nat.eqb (leading_ones b) 1 || Nat.ltb 4 (leading_ones b));
          [reflexivity|].
        destruct (take_escapes (leading_ones b - 1) rest)
          as [[bs rest']|] eqn:E'; [|reflexivity].
        apply take_escapes_shorter in E'.
        destruct (valid_utf8 (b :: bs)); [|reflexivity].
        rewrite (IH f2 rest'); [reflexivity | lia | lia].
    + rewrite (IH f2 s'); [reflexivity | lia | lia].
Qed.

(** [PATCH /api/rules/:ruleId] answers 400 when the route parameter
    does not decode, and otherwise judges the decoded id: 400 when the
    body sets neither field, whether or not the rule exists, else 404
    when no row has the id and 200 when one has; unless the answer is 200
    the table is untouched. *)
Theorem api_update_status (now : Z) (ruleId : string) (u : updates)
    (st : store) :
  status (fst (api_update now ruleId u st))
  = match decodeURIComponent ruleId with
    | None => 400%Z
    | Some id =>
        match upd_downstream_url u, upd_expires_at u with
        | None, None => 400%Z
        | _, _ => if existsb (has_id id) st then 200%Z else 404%Z
        end
    end
  /\ (status (fst (api_update now ruleId u st)) <> 200%Z ->
      snd (api_update now ruleId u st) = st).
Proof.
  unfold api_update.
  destruct (decodeURIComponent ruleId) as [id|];
    [|split; reflexivity].
  rewrite updateRule_outcome.
  destruct (find (has_id id) st) as [r|] eqn:Hfind.
  - assert (Hex : existsb (has_id id) st = true).
    { destruct (existsb (has_id id) st) eqn:E; [reflexivity|].
      apply find_none_existsb in E. congruence. }
    rewrite Hex.
    destruct (upd_downstream_url u), (upd_expires_at u); cbn;
      (split; [reflexivity|]); intro H; try reflexivity; contradiction.
  - apply find_none_existsb in Hfind. rewrite Hfind.
    destruct (upd_downstream_url u), (upd_expires_at u); cbn;
      (split; [reflexivity|]); reflexivity.
Qed.

Lemma filter_any {A : Type} (p : A -> bool) (l : list A) :
  Nat.ltb 0 (length (filter p l)) = existsb p l.
Proof.
  induction l as [|x l IH]; simpl; [reflexivity|].
  destruct (p x); simpl; [reflexivity | exact IH].
Qed.

Lemma existsb_after_delete (ruleId : string) (st : store) :
  existsb (has_id ruleId) (filter (fun r => negb (has_id ruleId r)) st)
  = false.
Proof.
  induction st as [|x st IH]; simpl; [reflexivity|].
  destruct (has_id ruleId x) eqn:Hx; simpl; [exact IH|].
  now rewrite Hx.
Qed.

(** [DELETE /api/rules/:ruleId] answers 500 and deletes nothing when
    the route parameter does not decode; otherwise it answers 200 when a
    row has the decoded id and 404 when none has, and repeating the
    request then gets 404. *)
Theorem api_delete_status (ruleId : string) (st : store) :
  match decodeURIComponent ruleId with
  | None => api_delete ruleId st = (mkReply 500 None (Some uri_malformed), st)
  | Some id =>
      status (fst (api_delete ruleId st))
      = (if existsb (has_id id) st then 200%Z else 404%Z)
      /\ status (fst (api_delete ruleId (snd (api_delete ruleId st))))
         = 404%Z
  end.
Proof.
  unfold api_delete.
  destruct (decodeURIComponent ruleId) as [id|]; [|reflexivity].
  assert (H : forall s,
             match deleteRule id s with
             | (Ok deleted, st') =>
                 if negb deleted
                 then (mkReply 404 None (Some (Error "Rule not found")), st')
                 else (mkReply 200 None None, st')
             | (Throw e, st') => (mkReply 500 None (Some e), st')
             end
             = (if existsb (has_id id) s
                then mkReply 200 None None
                else mkReply 404 None (Some (Error "Rule not found")),
                filter (fun r => negb (has_id id r)) s)).
  { intro s. unfold deleteRule. rewrite filter_any.
    now destruct (existsb (has_id id) s). }
  rewrite !H. cbn [fst snd]. rewrite existsb_after_delete. cbn [status].
  now destruct (existsb (has_id id) st).
Qed.

(** The decoder at work: an escaped slash is decoded, a percent sign
    that no two hexadecimal digits follow is refused, and so are octets
    that are not UTF-8. *)
Example decodeURIComponent_examples :
  decodeURIComponent "api.example.com%2Fusers" = Some "api.example.com/users"
  /\ decodeURIComponent "api.example.com/50%off" = None
  /\ decodeURIComponent "%C3%A9" <> None
  /\ decodeURIComponent "%C0%80" = None
  /\ decodeURIComponent "%ED%A0%80" = None
  /\ decodeURIComponent "%E2%82" = None.
Proof. repeat split; try reflexivity. discriminate. Qed.

(** A rule whose id has a percent sign that is no escape cannot be
    deleted or patched through the API. *)
Example percent_id_out_of_reach :
  let row := mkRule "api.example.com/50%off" "example.com" (Some "api")
               (Some "/50%off") None "http://sale:1" 5000 100 100 in
  api_delete "api.example.com/50%off" [row]
  = (mkReply 500 None (Some uri_malformed), [row])
  /\ api_update 1000 "api.example.com/50%off"
       (mkUpdates (Some "http://sale:2") None []) [row]
     = (mkReply 400 None (Some uri_malformed), [row]).
Proof. split; reflexivity. Qed.

(** * The two front ends *)

Lemma parseHost_domain_not_empty (host : string) :
  host <> "" -> fst (parseHost host) <> "".
Proof.
  intro H. unfold parseHost.
  destruct (Nat.leb 2 (length (split_dot host))) eqn:H2; [|exact H].
  apply Nat.leb_le in H2. cbn [fst].
  destruct (skipn_last_two _ H2) as (a & b & ->).
  destruct a; discriminate.
Qed.

Lemma of_column_or_null (v : jsstr) :
  of_column (or_null v) = if truthy v then v else JNull.
Proof.
  unfold or_null, or_default. destruct (truthy v) eqn:Hv; [|reflexivity].
  destruct v; try discriminate. reflexivity.
Qed.

Lemma findMatchingRule_falsy_subdomain (now : Z) (st : store) (dom : string)
    (sub : jsstr) (pth : jsstr) (keys : list string) :
  truthy sub = false ->
  findMatchingRule now st dom sub pth keys
  = findMatchingRule now st dom JNull pth keys.
Proof.
  intro H. unfold findMatchingRule.
  rewrite (collect_matches_ext_request _ sub pth JNull pth); [reflexivity|].
  intro r. unfold score_rule.
  now rewrite (check_subdomain_falsy r sub JNull H eq_refl).
Qed.

(** For a request that names a path, the resolver and [GET /api/match]
    agree on the rule: asked for the host's domain and subdomain, the API
    finds none exactly when the resolver answers 404; and the rule the
    API returns is the one whose target the resolver hands out, or over
    which it answers 500 when the rule's target or id cannot be put in a
    header. *)
Theorem front_ends_agree_with_path (now : Z) (st : store) (host : string)
    (reqPath : jsstr) (keys : list string) :
  host <> "" -> truthy reqPath = true ->
  resolve_handler now st (JStr host) reqPath keys
  = match data (api_match now st (JStr (fst (parseHost host)))
                  (snd (parseHost host)) reqPath keys) with
    | Some r =>
        if header_value_ok (downstream_url r) && header_value_ok (rule_id r)
        then Resolver_200 (downstream_url r) (rule_id r) (expires_at r)
        else Resolver_500
    | None => Resolver_404
    end.
Proof.
  intros Hh Hp. unfold resolve_handler, api_match.
  assert (Hth : truthy (JStr host) = true)
    by (unfold truthy; apply negb_true_iff; now apply String.eqb_neq).
  rewrite Hth. cbn [negb template].
  pose proof (parseHost_domain_not_empty host Hh) as Hd.
  destruct (parseHost host) as [dom sub]. cbn [fst snd] in *.
  assert (Htd : truthy (JStr dom) = true)
    by (unfold truthy; apply negb_true_iff; now apply String.eqb_neq).
  rewrite Htd. cbn [negb].
  rewrite !of_column_or_null. unfold or_default. rewrite Hp.
  assert (E : findMatchingRule now st dom
                (if truthy sub then sub else JNull) reqPath keys
              = findMatchingRule now st dom sub reqPath keys).
  { destruct (truthy sub) eqn:Hs; [reflexivity|].
    symmetry. now apply findMatchingRule_falsy_subdomain. }
  rewrite E.
  now destruct (findMatchingRule now st dom sub reqPath keys).
Qed.

Lemma front_ends_agree_with_path_witness :
  resolve_handler 1000 test_store (JStr "api.example.com") (JStr "/users")
    ["id"]
  = match data (api_match 1000 test_store
                  (JStr (fst (parseHost "api.example.com")))
                  (snd (parseHost "api.example.com")) (JStr "/users")
                  ["id"]) with
    | Some r =>
        if header_value_ok (downstream_url r) && header_value_ok (rule_id r)
        then Resolver_200 (downstream_url r) (rule_id r) (expires_at r)
        else Resolver_500
    | None => Resolver_404
    end.
Proof.
  apply (front_ends_agree_with_path 1000 test_store "api.example.com"
           (JStr "/users") ["id"]).
  - discriminate.
  - reflexivity.
Defined.

(** A target with a line feed makes the resolver answer 500 where the
    API returns the rule. *)
Example resolver_500_on_line_feed :
  let row := mkRule "www.example.com/x" "example.com" (Some "www")
               (Some "/x") None
               (String (ascii_of_N 10) "http://bad:1") 5000 100 100 in
  resolve_handler 1000 [row] (JStr "www.example.com") (JStr "/x") []
  = Resolver_500
  /\ api_match 1000 [row] (JStr "example.com") (JStr "www") (JStr "/x") []
     = mkReply 200 (Some row) None.
Proof. split; reflexivity. Qed.

(** Without a path the two can part: the resolver asks for ["/"], the
    API for no path, and a rule stored with the exact path ["/"] is
    found by the first only. *)
Example front_ends_part_without_path :
  let slash_rule :=
    mkRule "www.example.com/" "example.com" (Some "www") (Some "/") None
      "http://root:1" 5000 100 100 in
  resolve_handler 1000 [slash_rule] (JStr "www.example.com") JUndefined []
  = Resolver_200 "http://root:1" "www.example.com/" 5000
  /\ status (api_match 1000 [slash_rule] (JStr "example.com") (JStr "www")
               JUndefined []) = 404%Z.
Proof. split; reflexivity. Qed.
